(** * async-btree: the control combinators of [async_btree/control.py]

    A shallow embedding of [sequence], [fallback], [selector], [decision]
    and [repeat_until], followed by the properties of the combinator engine.

    An awaitable is a computation over some world [St] that either does not
    return, or completes normally with a Python value, or completes by
    raising an exception.  The combinators are translated statement by
    statement into a small state-and-exception monad. *)

From Stdlib Require Import ZArith List String Bool Lia.
Import ListNotations.
Open Scope Z_scope.
Set Warnings "-register-all".

(** ** Python values *)

(** An instance of a subclass of [Exception]: the class the handlers of
    control.py name in [except Exception as e]. *)
Record exn : Type := Exception { exn_class : string; exn_message : string }.

(** The values awaitables produce.  [VList] is the list [_sequence] returns,
    [ControlFlowException e] the wrapper built in the handlers. *)
Inductive value : Type :=
| VNone
| VBool (b : bool)
| VInt (z : Z)
| VStr (s : string)
| VList (items : list value)
| ControlFlowException (e : exn).

(** Modelled from the spec: the constants [SUCCESS] and [FAILURE] of
    common.py, which is not among the sources; [FAILURE] is the generic
    failure marker (no underlying error), [SUCCESS] its opposite. *)
Definition SUCCESS : value := VBool true.
Definition FAILURE : value := VBool false.

(** Python truth value testing, [bool(v)], as used by [if last_result:] and
    [if await condition():].  Modelled from the spec: the truth value of
    [ControlFlowException] (class of common.py, not among the sources): a
    captured error is a Failure. *)
Definition truth (v : value) : bool :=
  match v with
  | VNone => false
  | VBool b => b
  | VInt z => negb (z =? 0)
  | VStr s => match s with EmptyString => false | _ => true end
  | VList items => match items with [] => false | _ => true end
  | ControlFlowException _ => false
  end.

(** ** Evaluation monad *)

(** How an evaluation that returns control completes. *)
Inductive completion (A : Type) : Type :=
| Normal (a : A)
| Raised (e : exn).
Arguments Normal {A} a.
Arguments Raised {A} e.

(** [None] stands for an evaluation that never returns. *)
Definition M (St A : Type) : Type := St -> option (completion A * St).

Definition ret {St A} (a : A) : M St A := fun s => Some (Normal a, s).

Definition raise {St A} (e : exn) : M St A := fun s => Some (Raised e, s).

Definition bind {St A B} (m : M St A) (k : A -> M St B) : M St B :=
  fun s =>
    match m s with
    | Some (Normal a, s') => k a s'
    | Some (Raised e, s') => Some (Raised e, s')
    | None => None
    end.

(** [try: m  except Exception as e: h e] *)
Definition try_except {St A} (m : M St A) (h : exn -> M St A) : M St A :=
  fun s =>
    match m s with
    | Some (Normal a, s') => Some (Normal a, s')
    | Some (Raised e, s') => h e s'
    | None => None
    end.

Definition diverge {St A} : M St A := fun _ => None.

Declare Scope btree_scope.
Delimit Scope btree_scope with btree.
Notation "x <- m ;; k" := (bind m (fun x => k))
  (at level 61, m at next level, right associativity) : btree_scope.
Open Scope btree_scope.

(** An awaitable: [await child()] is the computation itself. *)
Definition node (St : Type) : Type := M St value.

(** What building a node yields: the node, or the [AssertionError] of a
    failed [assert]. *)
Inductive construction (St : Type) : Type :=
| Node (n : node St)
| AssertionError.
Arguments Node {St} n.
Arguments AssertionError {St}.

(** ** The combinators *)

Section Control.
Context {St : Type}.

(** Modelled from the spec: [node_metadata] of common.py, not among the
    sources; it attaches a descriptor (name, edges, properties) to the
    function it decorates and is decoupled from evaluation. *)
Definition node_metadata (f : node St) : node St := f.

(** Modelled from the spec: [is_success] of decorator.py, not among the
    sources; the loop of [repeat_until] continues while the condition
    reports Success, and an error raised while a node is evaluated is
    caught and converted to the Failure that carries it.  The wrapper maps
    the condition's result to the generic marker of its truth value, and an
    error raised by the condition to its [ControlFlowException]. *)
Definition is_success (child : node St) : node St :=
  node_metadata
    (try_except
       (v <- child ;; ret (if truth v then SUCCESS else FAILURE))
       (fun e => ret (ControlFlowException e))).

(** The [try]/[except] block of [_sequence] and of [_repeat_until]:
    [try: r = await child()  except Exception as e: r = ControlFlowException(e)] *)
Definition attempt (child : node St) : M St value :=
  try_except child (fun e => ret (ControlFlowException e)).

(** The [for child in children] loop of [_sequence], from the current
    counters and result list.  [Some v] is a [return v] from inside the
    loop, [None] the loop running out of children. *)
Fixpoint for_children (succes_threshold failure_threshold : Z)
    (children : list (node St)) (success failure : Z) (results : list value)
    : M St (option value) :=
  match children with
  | [] => ret None
  | child :: rest =>
      last_result <- attempt child ;;
      let results := results ++ [last_result] in
      if truth last_result then
        let success := success + 1 in
        if success =? succes_threshold then ret (Some (VList results))
        else for_children succes_threshold failure_threshold rest
               success failure results
      else
        let failure := failure + 1 in
        if failure =? failure_threshold then ret (Some last_result)
        else for_children succes_threshold failure_threshold rest
               success failure results
  end.

Definition _sequence (children : list (node St))
    (succes_threshold failure_threshold : Z) : node St :=
  returned <- for_children succes_threshold failure_threshold children 0 0 [] ;;
  match returned with
  | Some v => ret v
  | None => ret FAILURE (* should be never reached *)
  end.

(** [len(children)] *)
Definition len (children : list (node St)) : Z := Z.of_nat (List.length children).

(** [succes_threshold if succes_threshold else len(children)]: [None] and
    [0] are both falsy. *)
Definition effective_threshold (children : list (node St))
    (succes_threshold : option Z) : Z :=
  match succes_threshold with
  | Some t => if t =? 0 then len children else t
  | None => len children
  end.

Definition sequence (children : list (node St)) (succes_threshold : option Z)
    : construction St :=
  let succes_threshold := effective_threshold children succes_threshold in
  if (0 <=? succes_threshold) && (succes_threshold <=? len children) then
    let failure_threshold := len children - succes_threshold + 1 in
    Node (node_metadata (_sequence children succes_threshold failure_threshold))
  else AssertionError.

(** A decorator applied to the outcome of a constructor call: the
    constructor's [AssertionError] passes before the decorator runs. *)
Definition decorated (c : construction St) : construction St :=
  match c with
  | Node n => Node (node_metadata n)
  | AssertionError => AssertionError
  end.

Definition fallback (children : list (node St)) : construction St :=
  decorated (sequence children (Some (Z.min 1 (len children)))).

Definition selector (children : list (node St)) : construction St :=
  decorated (fallback children).

Definition _decision (condition success_tree : node St)
    (failure_tree : option (node St)) : node St :=
  c <- condition ;;
  if truth c then success_tree
  else match failure_tree with
       | Some failure_tree => failure_tree
       | None => ret FAILURE
       end.

Definition decision (condition success_tree : node St)
    (failure_tree : option (node St)) : node St :=
  node_metadata (_decision condition success_tree failure_tree).

(** The [while await condition_eval():] loop of [_repeat_until]; [fuel]
    bounds the number of checks, and running out of it stands for a loop
    that has not ended yet. *)
Fixpoint while_condition (fuel : nat) (condition_eval child : node St)
    (result : value) : M St value :=
  match fuel with
  | O => diverge
  | S fuel =>
      c <- condition_eval ;;
      if truth c then
        result <- attempt child ;;
        while_condition fuel condition_eval child result
      else ret result
  end.

Definition _repeat_until (fuel : nat) (condition child : node St) : node St :=
  let result := FAILURE in
  let condition_eval := is_success condition in
  while_condition fuel condition_eval child result.

Definition repeat_until (fuel : nat) (condition child : node St) : node St :=
  node_metadata (_repeat_until fuel condition child).

End Control.

(** ** Vocabulary of the properties *)

(** An awaitable instrumented to record its evaluations: [probe i child]
    runs [child] on its own world and appends [i] to a journal kept beside
    it, out of the reach of [child]. *)
Definition probe {U : Type} (i : nat) (child : node U) : node (U * list nat) :=
  fun w =>
    match child (fst w) with
    | Some (r, u') => Some (r, (u', snd w ++ [i]))
    | None => None
    end.

Section Vocabulary.
Context {St : Type}.

(** The number of Success, and of Failure, results in a list of results. *)
Definition successes (results : list value) : Z :=
  Z.of_nat (List.length (filter truth results)).

Definition failures (results : list value) : Z :=
  Z.of_nat (List.length (filter (fun v => negb (truth v)) results)).

(** Every child of the list evaluated in turn, one after the other, a
    raised error read as the Failure that carries it: the results in
    order. *)
Fixpoint reports (children : list (node St)) : M St (list value) :=
  match children with
  | [] => ret []
  | child :: rest =>
      v <- attempt child ;;
      vs <- reports rest ;;
      ret (v :: vs)
  end.

(** [rounds condition child m s r s']: from [s], the condition reports
    Success [m] times in a row, each check followed by one evaluation of
    [child]; [s'] is the world after the [m]-th evaluation of [child] and
    [r] its result ([FAILURE] when there was none). *)
Inductive rounds (condition child : node St) : nat -> St -> value -> St -> Prop :=
| rounds_O s : rounds condition child O s FAILURE s
| rounds_S m s r s1 c s2 v s3 :
    rounds condition child m s r s1 ->
    condition s1 = Some (Normal c, s2) ->
    truth c = true ->
    attempt child s2 = Some (Normal v, s3) ->
    rounds condition child (S m) s v s3.

(** The child returns control wherever it is evaluated. *)
Definition returns (child : node St) : Prop := forall s, child s <> None.

End Vocabulary.

(** How the children of a list fare when evaluated in turn until the first
    Failure. *)
Inductive fate {St : Type} (children : list (node St)) (s : St) : Type :=
| all_succeed rs s' :
    reports children s = Some (Normal rs, s') ->
    forallb truth rs = true ->
    fate children s
| first_failure pre child post rs s1 v s2 :
    children = pre ++ child :: post ->
    reports pre s = Some (Normal rs, s1) ->
    forallb truth rs = true ->
    attempt child s1 = Some (Normal v, s2) ->
    truth v = false ->
    fate children s
| never_returns pre child post rs s1 :
    children = pre ++ child :: post ->
    reports pre s = Some (Normal rs, s1) ->
    forallb truth rs = true ->
    child s1 = None ->
    fate children s.

(** The children of a list instrumented with their positions, counted
    from [i]. *)
Fixpoint instrument {U : Type} (i : nat) (children : list (node U))
    : list (node (U * list nat)) :=
  match children with
  | [] => []
  | child :: rest => probe i child :: instrument (S i) rest
  end.

(** The journal of [m] full turns of the instrumented loop: the condition
    is position 0, the child position 1. *)
Fixpoint turns (m : nat) : list nat :=
  match m with
  | O => []
  | S m => turns m ++ [0; 1]%nat
  end.

(** The evaluation of a node never completes by raising. *)
Definition contains_errors {St : Type} (nd : node St) : Prop :=
  forall s r s', nd s = Some (r, s') -> exists v, r = Normal v.

(** ** Sample leaves *)

(** A leaf over a world that counts the evaluations performed so far: it
    completes with [r] and bumps the counter. *)
Definition leaf (r : completion value) : node nat := fun n => Some (r, S n).

Definition boom : exn := Exception "ValueError" "boom".

(** A condition over the counting world that reports Success while fewer
    than [k] evaluations were performed. *)
Definition until_count (k : nat) : node nat :=
  fun n => Some (Normal (VBool (n <? k)%nat), S n).

(** ** Basic facts *)

Section Facts.
Context {St : Type}.
Implicit Types (child : node St) (children : list (node St)) (s : St).

Lemma successes_app (xs ys : list value) :
  successes (xs ++ ys) = successes xs + successes ys.
Proof.
  unfold successes. rewrite filter_app, length_app. lia.
Qed.

Lemma failures_app (xs ys : list value) :
  failures (xs ++ ys) = failures xs + failures ys.
Proof.
  unfold failures. rewrite filter_app, length_app. lia.
Qed.

Lemma successes_nonneg (xs : list value) : 0 <= successes xs.
Proof. unfold successes. lia. Qed.

Lemma failures_nonneg (xs : list value) : 0 <= failures xs.
Proof. unfold failures. lia. Qed.

Lemma successes_one (v : value) :
  successes [v] = if truth v then 1 else 0.
Proof. unfold successes. simpl. destruct (truth v); reflexivity. Qed.

Lemma failures_one (v : value) :
  failures [v] = if truth v then 0 else 1.
Proof. unfold failures. simpl. destruct (truth v); reflexivity. Qed.

Lemma attempt_normal child s v s' :
  child s = Some (Normal v, s') -> attempt child s = Some (Normal v, s').
Proof. intros H. unfold attempt, try_except. now rewrite H. Qed.

Lemma attempt_raised child s e s' :
  child s = Some (Raised e, s') ->
  attempt child s = Some (Normal (ControlFlowException e), s').
Proof. intros H. unfold attempt, try_except. now rewrite H. Qed.

Lemma attempt_never_raises child s r s' :
  attempt child s = Some (r, s') -> exists v, r = Normal v.
Proof.
  unfold attempt, try_except, ret.
  destruct (child s) as [[[v | e] s1] |]; intros H; inversion H; eauto.
Qed.

Lemma attempt_returns child s :
  child s <> None -> exists v s', attempt child s = Some (Normal v, s').
Proof.
  unfold attempt, try_except, ret.
  destruct (child s) as [[[v | e] s1] |]; intros H; [eauto | eauto | congruence].
Qed.

(** One turn of the [for] loop, once the child's result is known. *)
Lemma for_children_cons st ft child rest success failure results s v s' :
  attempt child s = Some (Normal v, s') ->
  for_children st ft (child :: rest) success failure results s =
    if truth v then
      if success + 1 =? st then Some (Normal (Some (VList (results ++ [v]))), s')
      else for_children st ft rest (success + 1) failure (results ++ [v]) s'
    else
      if failure + 1 =? ft then Some (Normal (Some v), s')
      else for_children st ft rest success (failure + 1) (results ++ [v]) s'.
Proof.
  intros H. simpl. unfold bind at 1. rewrite H.
  destruct (truth v).
  - destruct (success + 1 =? st); reflexivity.
  - destruct (failure + 1 =? ft); reflexivity.
Qed.

Lemma reports_inv children s vs s2 :
  reports children s = Some (Normal vs, s2) ->
  match children with
  | [] => vs = [] /\ s2 = s
  | child :: rest =>
      exists v vs' s1, vs = v :: vs' /\
        attempt child s = Some (Normal v, s1) /\
        reports rest s1 = Some (Normal vs', s2)
  end.
Proof.
  destruct children as [| child rest]; simpl.
  - unfold ret. intros H. inversion H. auto.
  - unfold bind at 1.
    destruct (attempt child s) as [[[v' | e] s'] |]; try discriminate.
    unfold bind.
    destruct (reports rest s') as [[[vs' | e] s''] |] eqn:E; try discriminate.
    unfold ret. intros H. inversion H; subst. eauto 6.
Qed.

End Facts.

(** ** The [for] loop of [_sequence] *)

Section Loop.
Context {St : Type}.
Implicit Types (child : node St) (children pre post : list (node St)) (s : St).

Lemma successes_cons (v : value) (vs : list value) :
  successes (v :: vs) = (if truth v then 1 else 0) + successes vs.
Proof.
  change (v :: vs) with ([v] ++ vs). now rewrite successes_app, successes_one.
Qed.

Lemma failures_cons (v : value) (vs : list value) :
  failures (v :: vs) = (if truth v then 0 else 1) + failures vs.
Proof.
  change (v :: vs) with ([v] ++ vs). now rewrite failures_app, failures_one.
Qed.

(** The loop returns the result list at the child whose Success brings
    the count to the threshold, provided no threshold was met before. *)
Lemma for_children_success_trigger st ft pre child post :
  forall success failure results s rs s1 v s2,
    reports pre s = Some (Normal rs, s1) ->
    attempt child s1 = Some (Normal v, s2) ->
    truth v = true ->
    success + successes rs + 1 = st ->
    failure + failures rs < ft ->
    for_children st ft (pre ++ child :: post) success failure results s
    = Some (Normal (Some (VList (results ++ rs ++ [v]))), s2).
Proof.
  induction pre as [| p pre IH]; intros success failure results s rs s1 v s2
    Hpre Hc Hv Hs Hf; apply reports_inv in Hpre.
  - destruct Hpre as [-> ->]. simpl app.
    rewrite (for_children_cons _ _ _ _ _ _ _ _ _ _ Hc), Hv.
    unfold successes in Hs; simpl in Hs.
    replace (success + 1 =? st) with true by (symmetry; apply Z.eqb_eq; lia).
    reflexivity.
  - destruct Hpre as (v0 & vs & s0 & -> & Hp & Hrest).
    rewrite successes_cons in Hs. rewrite failures_cons in Hf.
    pose proof (successes_nonneg vs). pose proof (failures_nonneg vs).
    simpl app.
    rewrite (for_children_cons _ _ _ _ _ _ _ _ _ _ Hp).
    destruct (truth v0).
    + replace (success + 1 =? st) with false by (symmetry; apply Z.eqb_neq; lia).
      rewrite (IH _ _ _ _ _ _ _ _ Hrest Hc Hv) by lia.
      now rewrite <- app_assoc.
    + replace (failure + 1 =? ft) with false by (symmetry; apply Z.eqb_neq; lia).
      rewrite (IH _ _ _ _ _ _ _ _ Hrest Hc Hv) by lia.
      now rewrite <- app_assoc.
Qed.

(** The loop returns the child's own result at the child whose Failure
    brings the count to the threshold, provided no threshold was met
    before. *)
Lemma for_children_failure_trigger st ft pre child post :
  forall success failure results s rs s1 v s2,
    reports pre s = Some (Normal rs, s1) ->
    attempt child s1 = Some (Normal v, s2) ->
    truth v = false ->
    success + successes rs < st ->
    failure + failures rs + 1 = ft ->
    for_children st ft (pre ++ child :: post) success failure results s
    = Some (Normal (Some v), s2).
Proof.
  induction pre as [| p pre IH]; intros success failure results s rs s1 v s2
    Hpre Hc Hv Hs Hf; apply reports_inv in Hpre.
  - destruct Hpre as [-> ->]. simpl app.
    rewrite (for_children_cons _ _ _ _ _ _ _ _ _ _ Hc), Hv.
    unfold failures in Hf; simpl in Hf.
    replace (failure + 1 =? ft) with true by (symmetry; apply Z.eqb_eq; lia).
    reflexivity.
  - destruct Hpre as (v0 & vs & s0 & -> & Hp & Hrest).
    rewrite successes_cons in Hs. rewrite failures_cons in Hf.
    pose proof (successes_nonneg vs). pose proof (failures_nonneg vs).
    simpl app.
    rewrite (for_children_cons _ _ _ _ _ _ _ _ _ _ Hp).
    destruct (truth v0).
    + replace (success + 1 =? st) with false by (symmetry; apply Z.eqb_neq; lia).
      now rewrite (IH _ _ _ _ _ _ _ _ Hrest Hc Hv) by lia.
    + replace (failure + 1 =? ft) with false by (symmetry; apply Z.eqb_neq; lia).
      now rewrite (IH _ _ _ _ _ _ _ _ Hrest Hc Hv) by lia.
Qed.

(** No error leaves the loop. *)
Lemma for_children_never_raises st ft children :
  forall success failure results s r s',
    for_children st ft children success failure results s = Some (r, s') ->
    exists o, r = Normal o.
Proof.
  induction children as [| child rest IH]; intros success failure results s r s' H.
  - inversion H. eauto.
  - simpl in H. unfold bind at 1 in H.
    destruct (attempt child s) as [[[v | e] s1] |] eqn:E; try discriminate.
    + destruct (truth v).
      * destruct (success + 1 =? st); [inversion H; eauto | eauto].
      * destruct (failure + 1 =? ft); [inversion H; eauto | eauto].
    + apply attempt_never_raises in E. destruct E as [v E]. discriminate.
Qed.

(** The loop returns control when every child does. *)
Lemma for_children_returns st ft children :
  Forall returns children ->
  forall success failure results s,
    exists o s',
      for_children st ft children success failure results s = Some (Normal o, s').
Proof.
  induction 1 as [| child rest Hc _ IH]; intros success failure results s.
  - simpl. unfold ret. eauto.
  - destruct (attempt_returns child s (Hc s)) as (v & s1 & E).
    rewrite (for_children_cons _ _ _ _ _ _ _ _ _ _ E).
    destruct (truth v).
    + destruct (success + 1 =? st); eauto.
    + destruct (failure + 1 =? ft); eauto.
Qed.

(** When the loop runs out of children, the children were too few for
    the counts still missing. *)
Lemma for_children_exhausted st ft children :
  forall success failure results s s',
    success < st -> failure < ft ->
    for_children st ft children success failure results s = Some (Normal None, s') ->
    len children <= (st - 1 - success) + (ft - 1 - failure).
Proof.
  unfold len.
  induction children as [| child rest IH]; intros success failure results s s' Hs Hf H.
  - simpl. lia.
  - simpl in H. unfold bind at 1 in H.
    destruct (attempt child s) as [[[v | e] s1] |] eqn:E; try discriminate.
    simpl List.length. rewrite Nat2Z.inj_succ.
    destruct (truth v).
    + destruct (success + 1 =? st) eqn:T; [discriminate |].
      apply Z.eqb_neq in T. apply IH in H; lia.
    + destruct (failure + 1 =? ft) eqn:T; [discriminate |].
      apply Z.eqb_neq in T. apply IH in H; lia.
Qed.

(** A run that every child of [pre] completes, followed by one more
    child. *)
Lemma reports_step (child : node St) pre s v s1 vs s2 :
  attempt child s = Some (Normal v, s1) ->
  reports pre s1 = Some (Normal vs, s2) ->
  reports (child :: pre) s = Some (Normal (v :: vs), s2).
Proof.
  intros Hc Hpre. simpl. unfold bind at 1. rewrite Hc.
  unfold bind. now rewrite Hpre.
Qed.

(** A return from inside the loop happens at a child that brings one of
    the two counts to its threshold, the other count being below its own. *)
Lemma for_children_trigger st ft children :
  forall success failure results s v0 s',
    success < st -> failure < ft ->
    for_children st ft children success failure results s
      = Some (Normal (Some v0), s') ->
    exists pre child post rs s1 v,
      children = pre ++ child :: post /\
      reports pre s = Some (Normal rs, s1) /\
      attempt child s1 = Some (Normal v, s') /\
      ((truth v = true /\ success + successes rs + 1 = st /\
        failure + failures rs < ft /\ v0 = VList (results ++ rs ++ [v])) \/
       (truth v = false /\ failure + failures rs + 1 = ft /\
        success + successes rs < st /\ v0 = v)).
Proof.
  induction children as [| child rest IH];
    intros success failure results s v0 s' Hs Hf H; [discriminate |].
  destruct (attempt child s) as [[[v | e] s1] |] eqn:E;
    try (simpl in H; unfold bind at 1 in H; rewrite E in H; discriminate).
  rewrite (for_children_cons _ _ _ _ _ _ _ _ _ _ E) in H.
  destruct (truth v) eqn:Tv.
  - destruct (success + 1 =? st) eqn:T.
    + apply Z.eqb_eq in T. inversion H; subst.
      exists [], child, rest, [], s, v. cbn. repeat split; auto.
      left. repeat split; auto; unfold successes, failures; simpl; lia.
    + apply Z.eqb_neq in T. apply IH in H; try lia.
      destruct H as (pre & c & post & rs & s2 & w & -> & Hpre & Hc & Hcase).
      exists (child :: pre), c, post, (v :: rs), s2, w.
      split; [reflexivity |].
      split; [exact (reports_step _ _ _ _ _ _ _ E Hpre) |].
      split; [exact Hc |].
      rewrite successes_cons, failures_cons, Tv.
      rewrite <- app_assoc in Hcase. simpl in Hcase.
      destruct Hcase as [(? & ? & ? & ?) | (? & ? & ? & ?)];
        [left | right]; repeat split; auto; lia.
  - destruct (failure + 1 =? ft) eqn:T.
    + apply Z.eqb_eq in T. inversion H; subst.
      exists [], child, rest, [], s, v0. cbn. repeat split; auto.
      right. repeat split; auto; unfold successes, failures; simpl; lia.
    + apply Z.eqb_neq in T. apply IH in H; try lia.
      destruct H as (pre & c & post & rs & s2 & w & -> & Hpre & Hc & Hcase).
      exists (child :: pre), c, post, (v :: rs), s2, w.
      split; [reflexivity |].
      split; [exact (reports_step _ _ _ _ _ _ _ E Hpre) |].
      split; [exact Hc |].
      rewrite successes_cons, failures_cons, Tv.
      rewrite <- app_assoc in Hcase. simpl in Hcase.
      destruct Hcase as [(? & ? & ? & ?) | (? & ? & ? & ?)];
        [left | right]; repeat split; auto; lia.
Qed.

(** With thresholds derived from a success threshold of at least one, the
    loop of a constructed node never runs out of children. *)
Lemma for_children_decides children threshold s o s' :
  1 <= threshold <= len children ->
  for_children threshold (len children - threshold + 1) children 0 0 [] s
    = Some (Normal o, s') ->
  exists v, o = Some v.
Proof.
  intros Ht H. destruct o as [v |]; [eauto |].
  apply for_children_exhausted in H; lia.
Qed.

Lemma _sequence_never_raises children st ft s r s' :
  _sequence children st ft s = Some (r, s') -> exists v, r = Normal v.
Proof.
  unfold _sequence, bind.
  destruct (for_children st ft children 0 0 [] s) as [[[o | e] s1] |] eqn:E;
    try discriminate.
  - destruct o; unfold ret; intros H; inversion H; eauto.
  - apply for_children_never_raises in E. destruct E as [o E]. discriminate.
Qed.

Lemma _sequence_returns children st ft s :
  Forall returns children ->
  exists v s', _sequence children st ft s = Some (Normal v, s').
Proof.
  intros H. unfold _sequence, bind.
  destruct (for_children_returns st ft children H 0 0 [] s) as (o & s1 & E).
  rewrite E. destruct o; unfold ret; eauto.
Qed.

End Loop.

(** ** Results of a run of children, and instrumented children *)

Section Runs.
Context {St : Type}.
Implicit Types (child : node St) (children pre post : list (node St)) (s : St).

Lemma all_success_counts (rs : list value) :
  forallb truth rs = true ->
  successes rs = Z.of_nat (List.length rs) /\ failures rs = 0.
Proof.
  induction rs as [| v rs IH]; intros H.
  - split; reflexivity.
  - simpl in H. apply andb_true_iff in H. destruct H as [Hv Hrs].
    destruct (IH Hrs) as [Hs Hf].
    rewrite successes_cons, failures_cons, Hv, Hs, Hf.
    simpl List.length. lia.
Qed.

Lemma reports_length children :
  forall s rs s',
    reports children s = Some (Normal rs, s') ->
    List.length rs = List.length children.
Proof.
  induction children as [| child rest IH]; intros s rs s' H;
    apply reports_inv in H.
  - destruct H as [-> _]. reflexivity.
  - destruct H as (v & vs & s1 & -> & _ & Hrest).
    simpl. f_equal. eapply IH; eassumption.
Qed.

Lemma reports_app pre post :
  forall s rs s',
    reports (pre ++ post) s = Some (Normal rs, s') ->
    exists rs1 s1 rs2,
      rs = rs1 ++ rs2 /\
      reports pre s = Some (Normal rs1, s1) /\
      reports post s1 = Some (Normal rs2, s').
Proof.
  induction pre as [| p pre IH]; intros s rs s' H.
  - exists [], s, rs. auto.
  - simpl app in H. apply reports_inv in H.
    destruct H as (v & vs & s1 & -> & Hp & Hrest).
    destruct (IH _ _ _ Hrest) as (rs1 & s2 & rs2 & -> & Hpre & Hpost).
    exists (v :: rs1), s2, rs2. split; [reflexivity | split; [| exact Hpost]].
    simpl. unfold bind at 1. rewrite Hp.
    unfold bind. rewrite Hpre. reflexivity.
Qed.

End Runs.

Section Probes.
Context {U : Type}.
Implicit Types (child : node U) (children pre post : list (node U)) (u : U).

Lemma probe_run i child u (journal : list nat) r u' :
  child u = Some (r, u') ->
  probe i child (u, journal) = Some (r, (u', journal ++ [i])).
Proof. intros H. unfold probe. simpl. now rewrite H. Qed.

Lemma attempt_probe i child u (journal : list nat) v u' :
  attempt child u = Some (Normal v, u') ->
  attempt (probe i child) (u, journal) = Some (Normal v, (u', journal ++ [i])).
Proof.
  unfold attempt, try_except, ret, probe. simpl.
  destruct (child u) as [[[w | e] u1] |]; intros H; inversion H; reflexivity.
Qed.

Lemma instrument_app pre post i :
  instrument i (pre ++ post)
  = instrument i pre ++ instrument (i + List.length pre) post.
Proof.
  revert i. induction pre as [| p pre IH]; intros i; simpl.
  - now rewrite Nat.add_0_r.
  - rewrite IH. now rewrite Nat.add_succ_r.
Qed.

Lemma instrument_length children i :
  List.length (instrument i children) = List.length children.
Proof.
  revert i. induction children as [| c cs IH]; intros i; simpl; congruence.
Qed.

(** A run of instrumented children gives the results of the plain run and
    journals the positions in order. *)
Lemma reports_instrument children :
  forall i u (journal : list nat) rs u',
    reports children u = Some (Normal rs, u') ->
    reports (instrument i children) (u, journal)
    = Some (Normal rs, (u', journal ++ seq i (List.length children))).
Proof.
  induction children as [| child rest IH]; intros i u journal rs u' H;
    apply reports_inv in H.
  - destruct H as [-> ->]. simpl. now rewrite app_nil_r.
  - destruct H as (v & vs & u1 & -> & Hc & Hrest).
    simpl. unfold bind at 1.
    rewrite (attempt_probe i _ _ journal _ _ Hc).
    unfold bind. rewrite (IH (S i) _ (journal ++ [i]) _ _ Hrest).
    unfold ret. now rewrite <- app_assoc.
Qed.

End Probes.

(** ** The node built by [sequence] *)

Section Sequence.
Context {St : Type}.
Implicit Types (child : node St) (children pre post : list (node St)) (s : St).

Lemma sequence_built children threshold :
  0 <= effective_threshold children threshold <= len children ->
  sequence children threshold
  = Node (_sequence children (effective_threshold children threshold)
            (len children - effective_threshold children threshold + 1)).
Proof.
  intros [H0 Hn]. unfold sequence.
  apply Z.leb_le in H0. apply Z.leb_le in Hn. now rewrite H0, Hn.
Qed.

Lemma sequence_default_built children :
  sequence children None = Node (_sequence children (len children) 1).
Proof.
  rewrite sequence_built; simpl effective_threshold.
  - now replace (len children - len children + 1) with 1 by lia.
  - unfold len. lia.
Qed.

Lemma _sequence_success_trigger st ft pre child post s rs s1 v s2 :
  reports pre s = Some (Normal rs, s1) ->
  attempt child s1 = Some (Normal v, s2) ->
  truth v = true ->
  successes rs + 1 = st ->
  failures rs < ft ->
  _sequence (pre ++ child :: post) st ft s = Some (Normal (VList (rs ++ [v])), s2).
Proof.
  intros Hpre Hc Hv Hs Hf. unfold _sequence, bind.
  now rewrite (for_children_success_trigger st ft pre child post
                 0 0 [] s rs s1 v s2 Hpre Hc Hv) by lia.
Qed.

Lemma _sequence_failure_trigger st ft pre child post s rs s1 v s2 :
  reports pre s = Some (Normal rs, s1) ->
  attempt child s1 = Some (Normal v, s2) ->
  truth v = false ->
  successes rs < st ->
  failures rs + 1 = ft ->
  _sequence (pre ++ child :: post) st ft s = Some (Normal v, s2).
Proof.
  intros Hpre Hc Hv Hs Hf. unfold _sequence, bind.
  now rewrite (for_children_failure_trigger st ft pre child post
                 0 0 [] s rs s1 v s2 Hpre Hc Hv) by lia.
Qed.

(** For a threshold from 1 to [n] and children that return, the
    evaluation ends at exactly one child: either its Success brings the
    success count to the threshold and the node returns the results so far,
    or its Failure brings the failure count to [n - threshold + 1] and the
    node returns that child's own result. *)
Lemma sequence_threshold_outcomes children threshold :
  1 <= threshold <= len children ->
  let ft := len children - threshold + 1 in
  sequence children (Some threshold) = Node (_sequence children threshold ft) /\
  forall s,
    Forall returns children ->
    exists pre child post rs s1 v s2,
      children = pre ++ child :: post /\
      reports pre s = Some (Normal rs, s1) /\
      attempt child s1 = Some (Normal v, s2) /\
      ((truth v = true /\ successes rs + 1 = threshold /\ failures rs < ft /\
        _sequence children threshold ft s = Some (Normal (VList (rs ++ [v])), s2)) \/
       (truth v = false /\ failures rs + 1 = ft /\ successes rs < threshold /\
        _sequence children threshold ft s = Some (Normal v, s2))).
Proof.
  intros Ht ft.
  assert (Heff : effective_threshold children (Some threshold) = threshold).
  { unfold effective_threshold. destruct (threshold =? 0) eqn:T; [| reflexivity].
    apply Z.eqb_eq in T. lia. }
  split.
  - rewrite sequence_built; rewrite Heff; [reflexivity | lia].
  - intros s Hret.
    destruct (for_children_returns threshold ft children Hret 0 0 [] s)
      as (o & s' & E).
    destruct (for_children_decides children threshold s o s' Ht E) as [v0 ->].
    destruct (for_children_trigger threshold ft children 0 0 [] s v0 s')
      as (pre & child & post & rs & s1 & v & Hsplit & Hpre & Hc & Hcase);
      [lia | unfold ft; lia | exact E |].
    exists pre, child, post, rs, s1, v, s'.
    repeat (split; [assumption |]).
    unfold _sequence, bind. fold ft. rewrite E. unfold ret.
    destruct Hcase as [(? & ? & ? & ->) | (? & ? & ? & ->)];
      [left | right]; repeat split; auto; lia.
Qed.

(** With the default threshold, a run in which every child reports
    Success returns the list of all the results. *)
Lemma _sequence_default_all_success children s rs s' :
  children <> [] ->
  reports children s = Some (Normal rs, s') ->
  forallb truth rs = true ->
  _sequence children (len children) 1 s = Some (Normal (VList rs), s').
Proof.
  intros Hne Hrun Hall.
  destruct (exists_last Hne) as (pre & child & ->).
  apply reports_app in Hrun.
  destruct Hrun as (rs1 & s1 & rs2 & -> & Hpre & Hlast).
  apply reports_inv in Hlast.
  destruct Hlast as (v & vs & s2 & -> & Hc & Hnil).
  apply reports_inv in Hnil. destruct Hnil as [-> ->].
  rewrite forallb_app in Hall. apply andb_true_iff in Hall.
  destruct Hall as [Hall1 Hv]. simpl in Hv. rewrite andb_true_r in Hv.
  destruct (all_success_counts rs1 Hall1) as [Hs Hf].
  apply (_sequence_success_trigger _ _ pre child [] s rs1 s1 v s2 Hpre Hc Hv).
  - rewrite Hs, (reports_length _ _ _ _ Hpre). unfold len.
    rewrite length_app. simpl. lia.
  - lia.
Qed.

(** With the default threshold, the first child that reports Failure
    ends the evaluation with its own result. *)
Lemma _sequence_default_first_failure pre child post s rs s1 v s2 :
  reports pre s = Some (Normal rs, s1) ->
  forallb truth rs = true ->
  attempt child s1 = Some (Normal v, s2) ->
  truth v = false ->
  _sequence (pre ++ child :: post) (len (pre ++ child :: post)) 1 s
  = Some (Normal v, s2).
Proof.
  intros Hpre Hall Hc Hv.
  destruct (all_success_counts rs Hall) as [Hs Hf].
  apply (_sequence_failure_trigger _ _ pre child post s rs s1 v s2 Hpre Hc Hv).
  - rewrite Hs, (reports_length _ _ _ _ Hpre). unfold len.
    rewrite length_app. simpl. lia.
  - lia.
Qed.

End Sequence.

(** ** Claims on [sequence] *)

(** C2. For a non-empty list of children, [sequence] with the default
    threshold is the classic AND.  When every child reports Success the
    node returns a Success, the list of all the results.  When [f] is the
    first child to report Failure the node returns [f]'s own result in the
    world [f] left, and the journal of the instrumented children holds the
    positions up to [f] and no later one: the children after [f] are not
    evaluated. *)
Theorem sequence_default_is_and {U : Type} (children : list (node U)) :
  children <> [] ->
  exists nd nd',
    sequence children None = Node nd /\
    sequence (instrument 0 children) None = Node nd' /\
    (forall u rs u',
        reports children u = Some (Normal rs, u') ->
        forallb truth rs = true ->
        nd u = Some (Normal (VList rs), u') /\
        truth (VList rs) = true /\
        nd' (u, []) = Some (Normal (VList rs),
                            (u', seq 0 (List.length children)))) /\
    (forall pre f post u rs u1 v u2,
        children = pre ++ f :: post ->
        reports pre u = Some (Normal rs, u1) ->
        forallb truth rs = true ->
        attempt f u1 = Some (Normal v, u2) ->
        truth v = false ->
        nd u = Some (Normal v, u2) /\
        nd' (u, []) = Some (Normal v, (u2, seq 0 (S (List.length pre))))).
Proof.
  intros Hne.
  exists (_sequence children (len children) 1).
  exists (_sequence (instrument 0 children) (len (instrument 0 children)) 1).
  split; [apply sequence_default_built |].
  split; [apply sequence_default_built |].
  split.
  - intros u rs u' Hrun Hall. split; [| split].
    + now apply _sequence_default_all_success.
    + apply reports_length in Hrun.
      destruct rs; [destruct children; [congruence | discriminate] | reflexivity].
    + apply _sequence_default_all_success; [| | exact Hall].
      * destruct children; [congruence | discriminate].
      * now apply (reports_instrument children 0%nat u []).
  - intros pre f post u rs u1 v u2 -> Hpre Hall Hf Hv. split.
    + now apply (_sequence_default_first_failure pre f post u rs u1 v u2).
    + rewrite instrument_app. simpl instrument.
      replace (seq 0 (S (List.length pre)))
        with ([] ++ seq 0 (List.length pre) ++ [(0 + List.length pre)%nat])
        by (now rewrite seq_S).
      rewrite app_assoc.
      apply (_sequence_default_first_failure _ _ _ (u, []) rs
               (u1, [] ++ seq 0 (List.length pre))).
      * now apply reports_instrument.
      * exact Hall.
      * now apply attempt_probe.
      * exact Hv.
Qed.

(** The scenario [sequence([a, f, b])] where [f] fails: the result is [f]'s
    Failure after two evaluations, those of positions 0 and 1. *)
Lemma sequence_default_is_and_witness :
  exists nd',
    sequence (instrument 0 [leaf (Normal (VStr "a")); leaf (Normal FAILURE);
                            leaf (Normal (VStr "b"))]) None = Node nd' /\
    nd' (0%nat, []) = Some (Normal FAILURE, (2%nat, [0%nat; 1%nat])).
Proof.
  destruct (sequence_default_is_and
              [leaf (Normal (VStr "a")); leaf (Normal FAILURE);
               leaf (Normal (VStr "b"))]) as (nd & nd' & _ & Hb & _ & Hf).
  - discriminate.
  - exists nd'. split; [exact Hb |].
    apply (Hf [leaf (Normal (VStr "a"))] (leaf (Normal FAILURE))
              [leaf (Normal (VStr "b"))] 0%nat [VStr "a"] 1%nat FAILURE 2%nat);
      reflexivity.
Defined.

(** C4. In the node built by [sequence], a child whose evaluation raises
    [e] makes its turn of the loop record [ControlFlowException e] and
    count one more failure; when that failure meets the failure threshold
    the node returns the Failure carrying [e]; no evaluation of the node
    completes by raising, and the node returns a result whenever its
    children return. *)
Theorem sequence_contains_raised_error {St : Type}
    (children : list (node St)) (threshold : option Z) (nd : node St) :
  sequence children threshold = Node nd ->
  let st := effective_threshold children threshold in
  let ft := len children - st + 1 in
  (forall (child : node St) rest success failure results e s s',
      child s = Some (Raised e, s') ->
      for_children st ft (child :: rest) success failure results s
      = if failure + 1 =? ft
        then Some (Normal (Some (ControlFlowException e)), s')
        else for_children st ft rest success (failure + 1)
               (results ++ [ControlFlowException e]) s') /\
  (forall pre (child : node St) post s rs s1 e s2,
      children = pre ++ child :: post ->
      reports pre s = Some (Normal rs, s1) ->
      child s1 = Some (Raised e, s2) ->
      successes rs < st ->
      failures rs + 1 = ft ->
      nd s = Some (Normal (ControlFlowException e), s2)) /\
  (forall s r s', nd s = Some (r, s') -> exists v, r = Normal v) /\
  (Forall returns children ->
   forall s, exists v s', nd s = Some (Normal v, s')).
Proof.
  intros Hb st ft. unfold sequence in Hb. fold st in Hb. fold ft in Hb.
  destruct ((0 <=? st) && (st <=? len children)); [| discriminate].
  injection Hb as <-. unfold node_metadata.
  split; [| split; [| split]].
  - intros child rest success failure results e s s' Hc.
    now rewrite (for_children_cons _ _ _ _ _ _ _ _ _ _ (attempt_raised _ _ _ _ Hc)).
  - intros pre child post s rs s1 e s2 -> Hpre Hc Hs Hf.
    apply (_sequence_failure_trigger st ft pre child post s rs s1 _ s2 Hpre);
      [now apply attempt_raised | reflexivity | exact Hs | exact Hf].
  - intros s r s'. apply _sequence_never_raises.
  - intros Hret s. now apply _sequence_returns.
Qed.

(** A single child that raises: the node returns the Failure carrying the
    error, after one evaluation. *)
Lemma sequence_contains_raised_error_witness :
  sequence [leaf (Raised boom)] None = Node (_sequence [leaf (Raised boom)] 1 1) /\
  _sequence [leaf (Raised boom)] 1 1 0%nat
  = Some (Normal (ControlFlowException boom), 1%nat).
Proof.
  split; [reflexivity |].
  destruct (sequence_contains_raised_error [leaf (Raised boom)] None
              (_sequence [leaf (Raised boom)] 1 1) eq_refl) as (_ & H & _).
  apply (H [] (leaf (Raised boom)) [] 0%nat [] 0%nat boom 1%nat); reflexivity.
Defined.

(** C1. The claim holds for thresholds from 1 to [n]
    ([sequence_threshold_outcomes]) and fails at the threshold 0: the
    constructor takes a threshold of 0 for a missing one and replaces it by
    [n].  With
    two children and threshold 0 the node returns the first child's Failure
    after one failure, although the failure count [n - 0 + 1 = 3] of the
    claim is not reached and zero successes were asked for. *)
Theorem sequence_zero_threshold_taken_as_default :
  (forall children : list (node nat),
      sequence children (Some 0) = sequence children None) /\
  exists nd,
    sequence [leaf (Normal FAILURE); leaf (Normal SUCCESS)] (Some 0) = Node nd /\
    nd 0%nat = Some (Normal FAILURE, 1%nat) /\
    truth FAILURE = false /\
    failures [FAILURE] = 1 /\
    1 < len [leaf (Normal FAILURE); leaf (Normal SUCCESS)] - 0 + 1.
Proof.
  split; [reflexivity |].
  eexists. split; [reflexivity |].
  repeat split; reflexivity.
Qed.

(** C3. With an effective threshold of 0 the evaluation does not succeed:
    [sequence([])] and [fallback([])] return the generic Failure, and
    [sequence([f], 0)] returns the Failure of [f]. *)
Theorem zero_threshold_reports_failure :
  (exists nd,
      sequence (@nil (node nat)) None = Node nd /\
      effective_threshold (@nil (node nat)) None = 0 /\
      nd 0%nat = Some (Normal FAILURE, 0%nat)) /\
  (exists nd,
      fallback (@nil (node nat)) = Node nd /\
      nd 0%nat = Some (Normal FAILURE, 0%nat)) /\
  (exists nd,
      sequence [leaf (Normal (VInt 0))] (Some 0) = Node nd /\
      nd 0%nat = Some (Normal (VInt 0), 1%nat)) /\
  truth FAILURE = false /\ truth (VInt 0) = false.
Proof.
  repeat split; try (eexists; split; [reflexivity |]); try reflexivity.
  split; reflexivity.
Qed.

(** C8. For the empty list of children the default threshold 0 passes the
    assertion, the loop runs out of children without a return, and the
    evaluation ends in the line after the loop. *)
Theorem sequence_post_loop_return_reached {St : Type} (s : St) :
  sequence (@nil (node St)) None = Node (_sequence [] 0 1) /\
  for_children 0 1 (@nil (node St)) 0 0 [] s = Some (Normal None, s) /\
  _sequence (@nil (node St)) 0 1 s = Some (Normal FAILURE, s).
Proof. repeat split. Qed.

(** ** Claims on [decision] *)

(** C6. Once the condition has returned [c], the decision node is the
    evaluation of [success_tree] when [c] is a Success, else of
    [failure_tree] when there is one, else the generic Failure, in the world
    the condition left.  The journal of the instrumented node holds the
    condition and the chosen branch only. *)
Theorem decision_evaluates_one_branch {U : Type}
    (condition success_tree : node U) (failure_tree : option (node U))
    (u : U) (c : value) (u1 : U) :
  condition u = Some (Normal c, u1) ->
  decision condition success_tree failure_tree u
  = (if truth c then success_tree u1
     else match failure_tree with
          | Some failure_tree => failure_tree u1
          | None => Some (Normal FAILURE, u1)
          end) /\
  forall r w,
    decision (probe 0 condition) (probe 1 success_tree)
      (option_map (probe 2) failure_tree) (u, []) = Some (r, w) ->
    snd w = (if truth c then [0; 1]
             else match failure_tree with
                  | Some _ => [0; 2]
                  | None => [0]
                  end)%nat.
Proof.
  intros Hc. split.
  - unfold decision, node_metadata, _decision, bind. rewrite Hc.
    destruct (truth c); [reflexivity |].
    destruct failure_tree; reflexivity.
  - intros r w. unfold decision, node_metadata, _decision, bind.
    rewrite (probe_run 0 condition u [] _ _ Hc).
    destruct (truth c).
    + unfold probe. simpl.
      destruct (success_tree u1) as [[r' u2] |]; intros H; inversion H; reflexivity.
    + destruct failure_tree as [f |]; simpl.
      * unfold probe. simpl.
        destruct (f u1) as [[r' u2] |]; intros H; inversion H; reflexivity.
      * unfold ret. intros H; inversion H; reflexivity.
Qed.

(** A failing condition with both branches given: only the failure branch
    runs. *)
Lemma decision_evaluates_one_branch_witness :
  decision (leaf (Normal FAILURE)) (leaf (Normal (VStr "yes")))
    (Some (leaf (Normal (VStr "no")))) 0%nat
  = Some (Normal (VStr "no"), 2%nat).
Proof.
  exact (proj1 (decision_evaluates_one_branch (leaf (Normal FAILURE))
                  (leaf (Normal (VStr "yes"))) (Some (leaf (Normal (VStr "no"))))
                  0%nat FAILURE 1%nat eq_refl)).
Defined.

(** ** The loop of [repeat_until] *)

Section Repeat.
Context {St : Type}.
Implicit Types (condition child : node St) (s : St).

Lemma is_success_normal condition s c s1 :
  condition s = Some (Normal c, s1) ->
  is_success condition s
  = Some (Normal (if truth c then SUCCESS else FAILURE), s1).
Proof.
  intros H. unfold is_success, node_metadata, try_except, bind.
  now rewrite H.
Qed.

Lemma is_success_raised condition s e s1 :
  condition s = Some (Raised e, s1) ->
  is_success condition s = Some (Normal (ControlFlowException e), s1).
Proof.
  intros H. unfold is_success, node_metadata, try_except, bind.
  now rewrite H.
Qed.

Lemma is_success_never_raises condition s r s1 :
  is_success condition s = Some (r, s1) -> exists v, r = Normal v.
Proof.
  unfold is_success, node_metadata, try_except, bind, ret.
  destruct (condition s) as [[[c | e] s2] |]; intros H; inversion H; eauto.
Qed.

Lemma while_condition_continue fuel (condition_eval : node St) child result
    s c s1 :
  condition_eval s = Some (Normal c, s1) ->
  truth c = true ->
  while_condition (S fuel) condition_eval child result s
  = (r <- attempt child ;; while_condition fuel condition_eval child r) s1.
Proof.
  intros H Hc. simpl. unfold bind at 1. now rewrite H, Hc.
Qed.

Lemma while_condition_stop fuel (condition_eval : node St) child result
    s c s1 :
  condition_eval s = Some (Normal c, s1) ->
  truth c = false ->
  while_condition (S fuel) condition_eval child result s
  = Some (Normal result, s1).
Proof.
  intros H Hc. simpl. unfold bind at 1. now rewrite H, Hc.
Qed.

(** Once the check succeeds, the result recorded so far is overwritten:
    the rest of the loop does not depend on it. *)
Lemma while_condition_overwrites fuel (condition_eval : node St) child
    s c s1 (r0 r1 : value) :
  condition_eval s = Some (Normal c, s1) ->
  truth c = true ->
  while_condition fuel condition_eval child r0 s
  = while_condition fuel condition_eval child r1 s.
Proof.
  intros H Hc. destruct fuel as [| fuel]; [reflexivity |].
  now rewrite !(while_condition_continue _ _ _ _ _ _ _ H Hc).
Qed.

(** [m] successful checks, each followed by the child, use up [m] turns of
    the loop and leave the last result of the child as the recorded one. *)
Lemma while_condition_rounds condition child m s r s1 :
  rounds condition child m s r s1 ->
  forall fuel,
    while_condition (m + fuel) (is_success condition) child FAILURE s
    = while_condition fuel (is_success condition) child r s1.
Proof.
  induction 1 as [s | m s r s1 c s2 v s3 _ IH Hc Ht Hv]; intros fuel.
  - reflexivity.
  - rewrite Nat.add_succ_comm, IH.
    rewrite (while_condition_continue _ _ _ _ _ _ _
               (is_success_normal _ _ _ _ Hc)) by now rewrite Ht.
    unfold bind. now rewrite Hv.
Qed.

Lemma repeat_until_rounds condition child m s r s1 c s2 fuel :
  rounds condition child m s r s1 ->
  condition s1 = Some (Normal c, s2) ->
  truth c = false ->
  (m < fuel)%nat ->
  repeat_until fuel condition child s = Some (Normal r, s2).
Proof.
  intros Hr Hc Ht Hfuel.
  replace fuel with (m + S (fuel - m - 1))%nat by lia.
  unfold repeat_until, node_metadata, _repeat_until.
  rewrite (while_condition_rounds _ _ _ _ _ _ Hr).
  apply (while_condition_stop _ _ _ _ _ _ _ (is_success_normal _ _ _ _ Hc)).
  now rewrite Ht.
Qed.

(** An error that leaves the loop was raised by the check of the
    condition. *)
Lemma while_condition_raise fuel (condition_eval : node St) child :
  forall result s e s',
    while_condition fuel condition_eval child result s = Some (Raised e, s') ->
    exists s0, condition_eval s0 = Some (Raised e, s').
Proof.
  induction fuel as [| fuel IH]; intros result s e s' H; [discriminate |].
  simpl in H. unfold bind at 1 in H.
  destruct (condition_eval s) as [[[c | e0] s1] |] eqn:E; try discriminate.
  - destruct (truth c); [| discriminate].
    unfold bind in H.
    destruct (attempt child s1) as [[[v | e1] s2] |] eqn:A; try discriminate.
    + eauto.
    + apply attempt_never_raises in A. destruct A as [v A]. discriminate.
  - inversion H; subst. eauto.
Qed.

(** A condition that raises ends the loop like one that reports Failure:
    the error is caught by the check and the recorded result is returned. *)
Lemma repeat_until_rounds_raised condition child m s r s1 e s2 fuel :
  rounds condition child m s r s1 ->
  condition s1 = Some (Raised e, s2) ->
  (m < fuel)%nat ->
  repeat_until fuel condition child s = Some (Normal r, s2).
Proof.
  intros Hr Hc Hfuel.
  replace fuel with (m + S (fuel - m - 1))%nat by lia.
  unfold repeat_until, node_metadata, _repeat_until.
  rewrite (while_condition_rounds _ _ _ _ _ _ Hr).
  now apply (while_condition_stop _ _ _ _ _ _ _ (is_success_raised _ _ _ _ Hc)).
Qed.

Lemma repeat_until_never_raises fuel condition child s r s' :
  repeat_until fuel condition child s = Some (r, s') -> exists v, r = Normal v.
Proof.
  destruct r as [v | e]; [eauto |]. intros H.
  apply while_condition_raise in H. destruct H as [s0 H].
  apply is_success_never_raises in H. destruct H as [v H]. discriminate.
Qed.

Lemma rounds_inv condition child m s r s1 :
  rounds condition child m s r s1 ->
  match m with
  | O => r = FAILURE /\ s1 = s
  | S k =>
      exists r' sk c sk',
        rounds condition child k s r' sk /\
        condition sk = Some (Normal c, sk') /\
        truth c = true /\
        attempt child sk' = Some (Normal r, s1)
  end.
Proof.
  destruct 1; [auto | eauto 10].
Qed.

End Repeat.

Lemma rounds_probe {U : Type} (condition child : node U) m u r u1 :
  rounds condition child m u r u1 ->
  forall journal : list nat,
    rounds (probe 0 condition) (probe 1 child) m (u, journal) r
      (u1, journal ++ turns m).
Proof.
  induction 1 as [u | m u r u1 c u2 v u3 _ IH Hc Ht Hv]; intros journal.
  - simpl. rewrite app_nil_r. constructor.
  - simpl turns. rewrite app_assoc.
    change [0; 1]%nat with ([0] ++ [1])%nat. rewrite app_assoc.
    eapply rounds_S.
    + apply IH.
    + apply probe_run. exact Hc.
    + exact Ht.
    + apply attempt_probe. exact Hv.
Qed.

Lemma count_turns (m : nat) :
  count_occ Nat.eq_dec (turns m ++ [0%nat]) 1%nat = m /\
  count_occ Nat.eq_dec (turns m ++ [0%nat]) 0%nat = S m.
Proof.
  rewrite !count_occ_app. simpl.
  induction m as [| m [IH1 IH0]]; [split; reflexivity |].
  simpl turns. rewrite !count_occ_app. simpl. lia.
Qed.

(** ** Claims on [repeat_until] *)

(** C7. When the condition reports Success [m] times in a row and Failure
    at the next check, [repeat_until] returns the result of the [m]-th
    evaluation of the child, which is the generic Failure when [m = 0]; the
    journal of the instrumented loop holds [m] evaluations of the child and
    [m + 1] of the condition, the last entry being the check that ends the
    loop. *)
Theorem repeat_until_evaluates_child_m_times {U : Type}
    (condition child : node U) (m : nat) (u : U) (r : value) (u1 : U)
    (c : value) (u2 : U) (fuel : nat) :
  rounds condition child m u r u1 ->
  condition u1 = Some (Normal c, u2) ->
  truth c = false ->
  (m < fuel)%nat ->
  repeat_until fuel condition child u = Some (Normal r, u2) /\
  repeat_until fuel (probe 0 condition) (probe 1 child) (u, [])
  = Some (Normal r, (u2, turns m ++ [0%nat])) /\
  count_occ Nat.eq_dec (turns m ++ [0%nat]) 1%nat = m /\
  count_occ Nat.eq_dec (turns m ++ [0%nat]) 0%nat = S m /\
  match m with
  | O => r = FAILURE /\ u1 = u
  | S k =>
      exists r' uk c' uk',
        rounds condition child k u r' uk /\
        condition uk = Some (Normal c', uk') /\
        truth c' = true /\
        attempt child uk' = Some (Normal r, u1)
  end.
Proof.
  intros Hr Hc Ht Hfuel. split; [| split; [| split; [| split]]].
  - exact (repeat_until_rounds _ _ _ _ _ _ _ _ _ Hr Hc Ht Hfuel).
  - apply (repeat_until_rounds (probe 0 condition) (probe 1 child) m (u, []) r
             (u1, [] ++ turns m) c).
    + apply rounds_probe. exact Hr.
    + apply probe_run. exact Hc.
    + exact Ht.
    + exact Hfuel.
  - apply count_turns.
  - apply count_turns.
  - exact (rounds_inv _ _ _ _ _ _ Hr).
Qed.

(** Two successful checks, then a failing one: the child runs twice. *)
Lemma repeat_until_evaluates_child_m_times_witness :
  repeat_until 3 (probe 0 (until_count 4)) (probe 1 (leaf (Normal (VInt 7))))
    (0%nat, [])
  = Some (Normal (VInt 7), (5%nat, [0; 1; 0; 1; 0]%nat)).
Proof.
  assert (R : rounds (until_count 4) (leaf (Normal (VInt 7))) 2 0%nat
                (VInt 7) 4%nat).
  { eapply rounds_S with (s1 := 2%nat) (s2 := 3%nat); try reflexivity.
    eapply rounds_S with (s1 := 0%nat) (s2 := 1%nat); try reflexivity.
    constructor. }
  exact (proj1 (proj2 (repeat_until_evaluates_child_m_times
                         (until_count 4) (leaf (Normal (VInt 7))) 2 0%nat
                         (VInt 7) 4%nat (VBool false) 5%nat 3 R eq_refl eq_refl
                         (le_n 3)))).
Defined.

(** C10. An error raised by the child does not end the loop: it becomes
    the recorded result and the loop goes on with the next check.  It is
    the returned result when that check fails; when that check succeeds the
    recorded error is overwritten, so the rest of the loop is the same
    whatever was recorded. *)
Theorem repeat_until_child_error_is_overwritten {St : Type}
    (condition child : node St) (m : nat) (s : St) (r : value) (s1 : St)
    (c1 : value) (s2 : St) (e : exn) (s3 : St) :
  rounds condition child m s r s1 ->
  condition s1 = Some (Normal c1, s2) ->
  truth c1 = true ->
  child s2 = Some (Raised e, s3) ->
  (forall fuel,
      repeat_until (S m + fuel) condition child s
      = while_condition fuel (is_success condition) child
          (ControlFlowException e) s3) /\
  (forall c3 s4 fuel,
      condition s3 = Some (Normal c3, s4) ->
      truth c3 = false ->
      (S m < fuel)%nat ->
      repeat_until fuel condition child s
      = Some (Normal (ControlFlowException e), s4)) /\
  (forall c3 s4 fuel r0,
      condition s3 = Some (Normal c3, s4) ->
      truth c3 = true ->
      while_condition fuel (is_success condition) child
        (ControlFlowException e) s3
      = while_condition fuel (is_success condition) child r0 s3) /\
  (forall c3 s4 v s5 c5 s6 fuel,
      condition s3 = Some (Normal c3, s4) ->
      truth c3 = true ->
      attempt child s4 = Some (Normal v, s5) ->
      condition s5 = Some (Normal c5, s6) ->
      truth c5 = false ->
      (S (S m) < fuel)%nat ->
      repeat_until fuel condition child s = Some (Normal v, s6)).
Proof.
  intros Hr Hc Ht He.
  assert (Hr' : rounds condition child (S m) s (ControlFlowException e) s3).
  { eapply rounds_S; eauto using attempt_raised. }
  split; [| split; [| split]].
  - intros fuel. unfold repeat_until, node_metadata, _repeat_until.
    apply (while_condition_rounds _ _ _ _ _ _ Hr').
  - intros c3 s4 fuel Hc3 Ht3 Hfuel.
    exact (repeat_until_rounds _ _ _ _ _ _ _ _ _ Hr' Hc3 Ht3 Hfuel).
  - intros c3 s4 fuel r0 Hc3 Ht3.
    apply (while_condition_overwrites _ _ _ _ _ _ _ _
             (is_success_normal _ _ _ _ Hc3)).
    now rewrite Ht3.
  - intros c3 s4 v s5 c5 s6 fuel Hc3 Ht3 Hv Hc5 Ht5 Hfuel.
    apply (repeat_until_rounds condition child (S (S m)) s v s5 c5 s6);
      try assumption.
    eapply rounds_S; eauto.
Qed.

(** A child that raises at each of its two evaluations: the returned
    Failure carries the error of the last one. *)
Lemma repeat_until_child_error_is_overwritten_witness :
  repeat_until 3 (until_count 4) (leaf (Raised boom)) 0%nat
  = Some (Normal (ControlFlowException boom), 5%nat).
Proof.
  assert (R : rounds (until_count 4) (leaf (Raised boom)) 1 0%nat
                (ControlFlowException boom) 2%nat).
  { eapply rounds_S with (s1 := 0%nat) (s2 := 1%nat); try reflexivity.
    constructor. }
  exact (proj1 (proj2 (repeat_until_child_error_is_overwritten
                         (until_count 4) (leaf (Raised boom)) 1 0%nat
                         (ControlFlowException boom) 2%nat (VBool true) 3%nat
                         boom 4%nat R eq_refl eq_refl eq_refl))
           (VBool false) 5%nat 3%nat eq_refl eq_refl (le_n 3)).
Defined.

(** ** Containment of errors *)

(** C5, as stated, fails on [decision]: the error raised by its condition
    leaves the node. *)
Lemma decision_reraises_condition_error :
  ~ contains_errors
      (decision (leaf (Raised boom)) (leaf (Normal SUCCESS)) None).
Proof.
  intros H. destruct (H 0%nat (Raised boom) 1%nat eq_refl) as [v Hv].
  discriminate.
Qed.

(** C5, amended.  The nodes built by [sequence], [fallback] and [selector]
    and the node [repeat_until] contain the errors raised by their children
    and condition: no evaluation completes by raising, the first three
    return a result whenever their children return, and [repeat_until]
    returns the recorded result as soon as a check is not a Success, be it
    that the condition returned a Failure or that it raised.  [decision]
    has no handler: the error raised by its condition, or by the branch it
    evaluates, is the way the node completes. *)
Theorem errors_contained_by_aggregators {St : Type} :
  (forall (children : list (node St)) threshold nd,
      sequence children threshold = Node nd ->
      contains_errors nd /\
      (Forall returns children ->
       forall s, exists v s', nd s = Some (Normal v, s'))) /\
  (forall (children : list (node St)) nd,
      fallback children = Node nd ->
      contains_errors nd /\
      (Forall returns children ->
       forall s, exists v s', nd s = Some (Normal v, s'))) /\
  (forall (children : list (node St)) nd,
      selector children = Node nd ->
      contains_errors nd /\
      (Forall returns children ->
       forall s, exists v s', nd s = Some (Normal v, s'))) /\
  (forall fuel (condition child : node St),
      contains_errors (repeat_until fuel condition child)) /\
  (forall (condition child : node St) m s r s1 s2 fuel,
      rounds condition child m s r s1 ->
      (exists c, condition s1 = Some (Normal c, s2) /\ truth c = false) \/
      (exists e, condition s1 = Some (Raised e, s2)) ->
      (m < fuel)%nat ->
      repeat_until fuel condition child s = Some (Normal r, s2)) /\
  (forall (condition success_tree : node St) failure_tree s e s',
      condition s = Some (Raised e, s') ->
      decision condition success_tree failure_tree s = Some (Raised e, s')) /\
  (forall (condition success_tree : node St) failure_tree s c s1 e s2,
      condition s = Some (Normal c, s1) ->
      truth c = true ->
      success_tree s1 = Some (Raised e, s2) ->
      decision condition success_tree failure_tree s = Some (Raised e, s2)) /\
  (forall (condition success_tree failure_tree : node St) s c s1 e s2,
      condition s = Some (Normal c, s1) ->
      truth c = false ->
      failure_tree s1 = Some (Raised e, s2) ->
      decision condition success_tree (Some failure_tree) s
      = Some (Raised e, s2)).
Proof.
  assert (Hseq : forall (children : list (node St)) threshold nd,
             sequence children threshold = Node nd ->
             contains_errors nd /\
             (Forall returns children ->
              forall s, exists v s', nd s = Some (Normal v, s'))).
  { intros children threshold nd Hb. unfold sequence in Hb.
    destruct (_ && _); [| discriminate].
    injection Hb as <-. unfold node_metadata. split.
    - intros s r s'. apply _sequence_never_raises.
    - intros Hret s. now apply _sequence_returns. }
  assert (Hfb : forall (children : list (node St)) nd,
             fallback children = Node nd ->
             contains_errors nd /\
             (Forall returns children ->
              forall s, exists v s', nd s = Some (Normal v, s'))).
  { intros children nd Hb. unfold fallback, decorated in Hb.
    destruct (sequence children _) as [n |] eqn:E; [| discriminate].
    injection Hb as <-. exact (Hseq _ _ _ E). }
  split; [exact Hseq |]. split; [exact Hfb |].
  split; [| split; [| split; [| split; [| split]]]].
  - intros children nd Hb. unfold selector, decorated in Hb.
    destruct (fallback children) as [n |] eqn:E; [| discriminate].
    injection Hb as <-. exact (Hfb _ _ E).
  - intros fuel condition child s r s'. apply repeat_until_never_raises.
  - intros condition child m s r s1 s2 fuel Hr [(c & Hc & Tc) | (e & Hc)] Hfuel.
    + exact (repeat_until_rounds _ _ _ _ _ _ _ _ _ Hr Hc Tc Hfuel).
    + exact (repeat_until_rounds_raised _ _ _ _ _ _ _ _ _ Hr Hc Hfuel).
  - intros condition success_tree failure_tree s e s' H.
    unfold decision, node_metadata, _decision, bind. now rewrite H.
  - intros condition success_tree failure_tree s c s1 e s2 H Ht He.
    unfold decision, node_metadata, _decision, bind. now rewrite H, Ht.
  - intros condition success_tree failure_tree s c s1 e s2 H Ht He.
    unfold decision, node_metadata, _decision, bind. now rewrite H, Ht.
Qed.

(** A raising child under [sequence], a raising condition under
    [repeat_until] and a raising condition under [decision]: the first two
    errors are contained, the third is not. *)
Lemma errors_contained_by_aggregators_witness :
  (exists v s', _sequence [leaf (Raised boom)] 1 1 0%nat = Some (Normal v, s')) /\
  repeat_until 1 (leaf (Raised boom)) (leaf (Normal VNone)) 0%nat
  = Some (Normal FAILURE, 1%nat) /\
  decision (leaf (Raised boom)) (leaf (Normal SUCCESS)) None 0%nat
  = Some (Raised boom, 1%nat).
Proof.
  destruct (@errors_contained_by_aggregators nat)
    as (Hs & _ & _ & _ & Hr & Hd & _).
  split; [| split].
  - apply (proj2 (Hs [leaf (Raised boom)] None _ eq_refl)).
    repeat constructor. discriminate.
  - apply (Hr (leaf (Raised boom)) (leaf (Normal VNone)) 0%nat 0%nat FAILURE
              0%nat 1%nat 1%nat (rounds_O _ _ 0%nat)).
    + right. exists boom. reflexivity.
    + exact (le_n 1).
  - exact (Hd (leaf (Raised boom)) (leaf (Normal SUCCESS)) None 0%nat boom 1%nat
              eq_refl).
Defined.

(** ** Further properties of [sequence] *)

Section Counting.
Context {St : Type}.
Implicit Types (child : node St) (children pre post : list (node St)) (s : St).

Lemma successes_failures_total (rs : list value) :
  successes rs + failures rs = Z.of_nat (List.length rs).
Proof.
  induction rs as [| v rs IH]; [reflexivity |].
  rewrite successes_cons, failures_cons. simpl List.length.
  destruct (truth v); lia.
Qed.

(** The loop against the run of all the children: a return from the loop
    tells which count the whole run brings to its threshold, and running
    out of children tells that it brings neither. *)
Lemma for_children_counts st ft children :
  forall success failure results s rs s',
    reports children s = Some (Normal rs, s') ->
    success < st -> failure < ft ->
    exists o s2,
      for_children st ft children success failure results s
        = Some (Normal o, s2) /\
      match o with
      | Some v =>
          (truth v = true /\ st <= success + successes rs) \/
          (truth v = false /\ ft <= failure + failures rs)
      | None =>
          success + successes rs < st /\ failure + failures rs < ft
      end.
Proof.
  induction children as [| child rest IH];
    intros success failure results s rs s' Hrun Hs Hf; apply reports_inv in Hrun.
  - destruct Hrun as [-> ->]. exists None, s. split; [reflexivity |].
    unfold successes, failures. simpl. lia.
  - destruct Hrun as (v & vs & s1 & -> & Hc & Hrest).
    rewrite (for_children_cons _ _ _ _ _ _ _ _ _ _ Hc).
    rewrite successes_cons, failures_cons.
    pose proof (successes_nonneg vs). pose proof (failures_nonneg vs).
    destruct (truth v) eqn:Tv.
    + destruct (success + 1 =? st) eqn:T.
      * apply Z.eqb_eq in T. eexists _, _. split; [reflexivity |].
        left. split; [now destruct results | lia].
      * apply Z.eqb_neq in T.
        destruct (IH (success + 1) failure (results ++ [v]) s1 vs s' Hrest)
          as (o & s2 & E & Ho); try lia.
        exists o, s2. split; [exact E |].
        destruct o; [destruct Ho as [[? ?] | [? ?]]; [left | right] |];
          split; auto; lia.
    + destruct (failure + 1 =? ft) eqn:T.
      * apply Z.eqb_eq in T. eexists _, _. split; [reflexivity |].
        right. split; [exact Tv | lia].
      * apply Z.eqb_neq in T.
        destruct (IH success (failure + 1) (results ++ [v]) s1 vs s' Hrest)
          as (o & s2 & E & Ho); try lia.
        exists o, s2. split; [exact E |].
        destruct o; [destruct Ho as [[? ?] | [? ?]]; [left | right] |];
          split; auto; lia.
Qed.

End Counting.

(** X1. [sequence] raises [AssertionError] exactly for a threshold that is
    negative or greater than the number of children; without a threshold it
    always builds a node. *)
Theorem sequence_assertion {St : Type} (children : list (node St)) (t : Z) :
  (sequence children (Some t) = AssertionError <-> t < 0 \/ len children < t) /\
  sequence children None <> AssertionError.
Proof.
  split.
  - unfold sequence, effective_threshold.
    assert (Hn : 0 <= len children) by (unfold len; lia).
    destruct (t =? 0) eqn:T0.
    + apply Z.eqb_eq in T0.
      replace (0 <=? len children) with true by (symmetry; apply Z.leb_le; lia).
      rewrite Z.leb_refl. simpl. split; [discriminate | lia].
    + apply Z.eqb_neq in T0.
      destruct (0 <=? t) eqn:A; destruct (t <=? len children) eqn:B; simpl;
        try apply Z.leb_le in A; try apply Z.leb_le in B;
        try apply Z.leb_gt in A; try apply Z.leb_gt in B;
        split; try discriminate; try lia; auto.
  - now rewrite sequence_default_built.
Qed.

(** X2. For a threshold from 1 to [n], when the children evaluated one
    after the other all return, the node returns a Success exactly when at
    least [threshold] of the [n] results are Successes, and a Failure
    exactly when more than [n - threshold] are Failures. *)
Theorem sequence_succeeds_iff_enough_successes {St : Type}
    (children : list (node St)) (threshold : Z) (s : St)
    (rs : list value) (s' : St) :
  1 <= threshold <= len children ->
  reports children s = Some (Normal rs, s') ->
  exists nd v s2,
    sequence children (Some threshold) = Node nd /\
    nd s = Some (Normal v, s2) /\
    (truth v = true <-> threshold <= successes rs) /\
    (truth v = false <-> len children - threshold < failures rs).
Proof.
  intros Ht Hrun.
  destruct (sequence_threshold_outcomes children threshold Ht) as [Hb _].
  pose proof (successes_failures_total rs) as Htot.
  rewrite (reports_length _ _ _ _ Hrun) in Htot. fold (len children) in Htot.
  destruct (for_children_counts threshold (len children - threshold + 1)
              children 0 0 [] s rs s' Hrun) as (o & s2 & E & Ho); try lia.
  destruct o as [v |]; [| lia].
  exists (_sequence children threshold (len children - threshold + 1)), v, s2.
  split; [exact Hb |].
  split; [unfold _sequence, bind; now rewrite E |].
  destruct Ho as [[Tv Hc] | [Tv Hc]]; rewrite Tv; split; split;
    intros; try reflexivity; try discriminate; lia.
Qed.

(** Three children that succeed, fail and succeed, with threshold 2: the
    node succeeds at the third child. *)
Lemma sequence_succeeds_iff_enough_successes_witness :
  exists nd v s2,
    sequence [leaf (Normal SUCCESS); leaf (Normal FAILURE); leaf (Normal SUCCESS)]
      (Some 2) = Node nd /\
    nd 0%nat = Some (Normal v, s2) /\
    (truth v = true <-> 2 <= successes [SUCCESS; FAILURE; SUCCESS]) /\
    (truth v = false <->
     len [leaf (Normal SUCCESS); leaf (Normal FAILURE); leaf (Normal SUCCESS)] - 2
     < failures [SUCCESS; FAILURE; SUCCESS]).
Proof.
  apply (sequence_succeeds_iff_enough_successes
           [leaf (Normal SUCCESS); leaf (Normal FAILURE); leaf (Normal SUCCESS)]
           2 0%nat [SUCCESS; FAILURE; SUCCESS] 3%nat).
  - unfold len. simpl. lia.
  - reflexivity.
Defined.

Section Shapes.
Context {St : Type}.
Implicit Types (child : node St) (children pre post : list (node St)) (s : St).

Lemma reports_snoc pre child :
  forall s rs s1 w s2,
    reports pre s = Some (Normal rs, s1) ->
    attempt child s1 = Some (Normal w, s2) ->
    reports (pre ++ [child]) s = Some (Normal (rs ++ [w]), s2).
Proof.
  induction pre as [| p pre IH]; intros s rs s1 w s2 Hpre Hc;
    apply reports_inv in Hpre.
  - destruct Hpre as [-> ->]. simpl. unfold bind, ret. now rewrite Hc.
  - destruct Hpre as (v & vs & s0 & -> & Hp & Hrest).
    exact (reports_step _ _ _ _ _ _ _ Hp (IH _ _ _ _ _ Hrest Hc)).
Qed.

Lemma all_failure_counts (rs : list value) :
  forallb (fun v => negb (truth v)) rs = true ->
  successes rs = 0 /\ failures rs = Z.of_nat (List.length rs).
Proof.
  induction rs as [| v rs IH]; intros H.
  - split; reflexivity.
  - simpl in H. apply andb_true_iff in H. destruct H as [Hv Hrs].
    destruct (IH Hrs) as [Hs Hf].
    rewrite successes_cons, failures_cons, Hs, Hf.
    apply negb_true_iff in Hv. rewrite Hv. simpl List.length. lia.
Qed.

Lemma fallback_built children :
  children <> [] ->
  fallback children = Node (_sequence children 1 (len children)).
Proof.
  intros Hne. unfold fallback.
  assert (Hn : 1 <= len children).
  { unfold len. destruct children; [congruence | simpl; lia]. }
  rewrite Z.min_l by lia.
  destruct (sequence_threshold_outcomes children 1) as [-> _]; [lia |].
  simpl. unfold node_metadata. do 2 f_equal. lia.
Qed.

End Shapes.

(** X3. For a threshold from 1 to [n], a result returned by the node comes
    from the child at which the evaluation stopped: either a list of the
    results in the order of the children, ending with a Success and holding
    exactly [threshold] Successes, or the own Failure of the child that
    brought the failures to [n - threshold + 1]. *)
Theorem sequence_result_shape {St : Type} (children : list (node St))
    (threshold : Z) (nd : node St) (s : St) (v : value) (s2 : St) :
  1 <= threshold <= len children ->
  sequence children (Some threshold) = Node nd ->
  nd s = Some (Normal v, s2) ->
  exists pre child post rs w,
    children = pre ++ child :: post /\
    reports (pre ++ [child]) s = Some (Normal (rs ++ [w]), s2) /\
    ((truth w = true /\ v = VList (rs ++ [w]) /\
      successes (rs ++ [w]) = threshold /\
      failures (rs ++ [w]) <= len children - threshold) \/
     (truth w = false /\ v = w /\
      failures (rs ++ [w]) = len children - threshold + 1 /\
      successes (rs ++ [w]) < threshold)).
Proof.
  intros Ht Hb Hrun.
  destruct (sequence_threshold_outcomes children threshold Ht) as [Hb' _].
  rewrite Hb in Hb'. injection Hb' as ->.
  unfold _sequence, bind in Hrun.
  destruct (for_children threshold (len children - threshold + 1) children
              0 0 [] s) as [[[o | e] s1] |] eqn:E; try discriminate.
  destruct (for_children_decides children threshold s o s1 Ht E) as [v0 ->].
  unfold ret in Hrun. injection Hrun as -> ->.
  destruct (for_children_trigger threshold (len children - threshold + 1)
              children 0 0 [] s v s2)
    as (pre & child & post & rs & s1' & w & Hsplit & Hpre & Hc & Hcase);
    [lia | lia | exact E |].
  exists pre, child, post, rs, w.
  split; [exact Hsplit |].
  split; [exact (reports_snoc _ _ _ _ _ _ _ Hpre Hc) |].
  rewrite successes_app, failures_app, successes_one, failures_one.
  destruct Hcase as [(Tw & ? & ? & ->) | (Tw & ? & ? & ->)]; rewrite Tw;
    [left | right]; repeat split; auto; lia.
Qed.

(** Threshold 2 of 3, the second child failing: the list returned holds
    the three results. *)
Lemma sequence_result_shape_witness :
  exists pre child post rs w,
    [leaf (Normal SUCCESS); leaf (Normal FAILURE); leaf (Normal SUCCESS)]
    = pre ++ child :: post /\
    reports (pre ++ [child]) 0%nat = Some (Normal (rs ++ [w]), 3%nat) /\
    ((truth w = true /\ VList [SUCCESS; FAILURE; SUCCESS] = VList (rs ++ [w]) /\
      successes (rs ++ [w]) = 2 /\
      failures (rs ++ [w])
      <= len [leaf (Normal SUCCESS); leaf (Normal FAILURE); leaf (Normal SUCCESS)]
         - 2) \/
     (truth w = false /\ VList [SUCCESS; FAILURE; SUCCESS] = w /\
      failures (rs ++ [w])
      = len [leaf (Normal SUCCESS); leaf (Normal FAILURE); leaf (Normal SUCCESS)]
        - 2 + 1 /\
      successes (rs ++ [w]) < 2)).
Proof.
  apply (sequence_result_shape
           [leaf (Normal SUCCESS); leaf (Normal FAILURE); leaf (Normal SUCCESS)]
           2
           (_sequence [leaf (Normal SUCCESS); leaf (Normal FAILURE);
                       leaf (Normal SUCCESS)] 2 2) 0%nat).
  - unfold len. simpl. lia.
  - reflexivity.
  - reflexivity.
Defined.

(** X4. For a non-empty list of children, [fallback] always builds a node,
    [selector] builds the same one, and the node is the classic OR.  At the
    first child that reports Success it returns the list of the results so
    far, the earlier Failures followed by that Success, and the journal of
    the instrumented children stops at that child.  When every child
    reports Failure it returns the own Failure of the last child. *)
Theorem fallback_is_or {U : Type} (children : list (node U)) :
  children <> [] ->
  exists nd nd',
    fallback children = Node nd /\
    selector children = Node nd /\
    fallback (instrument 0 children) = Node nd' /\
    (forall pre c post u rs u1 v u2,
        children = pre ++ c :: post ->
        reports pre u = Some (Normal rs, u1) ->
        forallb (fun r => negb (truth r)) rs = true ->
        attempt c u1 = Some (Normal v, u2) ->
        truth v = true ->
        nd u = Some (Normal (VList (rs ++ [v])), u2) /\
        nd' (u, []) = Some (Normal (VList (rs ++ [v])),
                            (u2, seq 0 (S (List.length pre))))) /\
    (forall u rs u',
        reports children u = Some (Normal rs, u') ->
        forallb (fun r => negb (truth r)) rs = true ->
        nd u = Some (Normal (last rs FAILURE), u') /\
        truth (last rs FAILURE) = false).
Proof.
  intros Hne.
  assert (Hne' : instrument 0 children <> []).
  { destruct children; [congruence | discriminate]. }
  exists (_sequence children 1 (len children)).
  exists (_sequence (instrument 0 children) 1 (len (instrument 0 children))).
  split; [now apply fallback_built |].
  split; [unfold selector; now rewrite fallback_built |].
  split; [now apply fallback_built |].
  split.
  - intros pre c post u rs u1 v u2 -> Hpre Hall Hc Hv.
    destruct (all_failure_counts rs Hall) as [Hs Hf].
    pose proof (reports_length _ _ _ _ Hpre) as Hlen.
    split.
    + apply (_sequence_success_trigger _ _ pre c post u rs u1 v u2 Hpre Hc Hv).
      * lia.
      * rewrite Hf, Hlen. unfold len. rewrite length_app. simpl. lia.
    + rewrite instrument_app. simpl instrument.
      replace (seq 0 (S (List.length pre)))
        with ([] ++ seq 0 (List.length pre) ++ [(0 + List.length pre)%nat])
        by (now rewrite seq_S).
      rewrite app_assoc.
      apply (_sequence_success_trigger _ _ _ _ _ (u, []) rs
               (u1, [] ++ seq 0 (List.length pre))).
      * now apply reports_instrument.
      * now apply attempt_probe.
      * exact Hv.
      * lia.
      * rewrite Hf, Hlen. unfold len.
        rewrite length_app, instrument_length. simpl.
        rewrite instrument_length. lia.
  - intros u rs u' Hrun Hall.
    destruct (exists_last Hne) as (pre & c & ->).
    apply reports_app in Hrun.
    destruct Hrun as (rs1 & u1 & rs2 & -> & Hpre & Hlast).
    apply reports_inv in Hlast.
    destruct Hlast as (v & vs & u2 & -> & Hc & Hnil).
    apply reports_inv in Hnil. destruct Hnil as [-> ->].
    rewrite forallb_app in Hall. apply andb_true_iff in Hall.
    destruct Hall as [Hall1 Hv]. simpl in Hv. rewrite andb_true_r in Hv.
    apply negb_true_iff in Hv.
    destruct (all_failure_counts rs1 Hall1) as [Hs Hf].
    rewrite last_last. split; [| exact Hv].
    apply (_sequence_failure_trigger _ _ pre c [] u rs1 u1 v u2 Hpre Hc Hv).
    + lia.
    + rewrite Hf, (reports_length _ _ _ _ Hpre). unfold len.
      rewrite length_app. simpl. lia.
Qed.

(** A failing child followed by a succeeding one and a third child: the
    result holds the two results and the third child is not evaluated. *)
Lemma fallback_is_or_witness :
  exists nd',
    fallback (instrument 0 [leaf (Normal FAILURE); leaf (Normal (VStr "b"));
                            leaf (Normal (VStr "c"))]) = Node nd' /\
    nd' (0%nat, [])
    = Some (Normal (VList [FAILURE; VStr "b"]), (2%nat, [0%nat; 1%nat])).
Proof.
  destruct (fallback_is_or
              [leaf (Normal FAILURE); leaf (Normal (VStr "b"));
               leaf (Normal (VStr "c"))]) as (nd & nd' & _ & _ & Hb & Hs & _).
  - discriminate.
  - exists nd'. split; [exact Hb |].
    apply (Hs [leaf (Normal FAILURE)] (leaf (Normal (VStr "b")))
              [leaf (Normal (VStr "c"))] 0%nat [FAILURE] 1%nat (VStr "b") 2%nat);
      reflexivity.
Defined.

Section Order.
Context {U : Type}.
Implicit Types (child : node U) (children : list (node U)) (u : U).

Lemma attempt_probe_inv i child u (journal : list nat) r w :
  attempt (probe i child) (u, journal) = Some (r, w) ->
  snd w = journal ++ [i] /\ exists v, r = Normal v.
Proof.
  unfold attempt, try_except, ret, probe. simpl.
  destruct (child u) as [[[v | e] u1] |]; intros H; inversion H; simpl; eauto.
Qed.

(** However the loop ends, the journal has grown by the positions of a
    prefix of the children, in order. *)
Lemma for_children_journal st ft children :
  forall i success failure results u (journal : list nat) o w,
    for_children st ft (instrument i children) success failure results
      (u, journal) = Some (o, w) ->
    exists k, (k <= List.length children)%nat /\ snd w = journal ++ seq i k.
Proof.
  induction children as [| child rest IH];
    intros i success failure results u journal o w H.
  - inversion H. exists 0%nat. simpl. now rewrite app_nil_r.
  - simpl in H. unfold bind at 1 in H.
    destruct (attempt (probe i child) (u, journal)) as [[r [u1 j1]] |] eqn:A;
      [| discriminate].
    destruct (attempt_probe_inv _ _ _ _ _ _ A) as [Hj [v ->]].
    simpl in Hj. subst j1.
    assert (Hone : exists k, (k <= List.length (child :: rest))%nat /\
                     journal ++ [i] = journal ++ seq i k).
    { exists 1%nat. simpl. split; [lia | reflexivity]. }
    assert (Hmore : forall success failure,
               for_children st ft (instrument (S i) rest) success failure
                 (results ++ [v]) (u1, journal ++ [i]) = Some (o, w) ->
               exists k, (k <= List.length (child :: rest))%nat /\
                 snd w = journal ++ seq i k).
    { intros a b Hab. apply IH in Hab. destruct Hab as (k & Hk & ->).
      exists (S k). simpl. split; [lia | now rewrite <- app_assoc]. }
    destruct (truth v).
    + destruct (success + 1 =? st); [inversion H; exact Hone | eauto].
    + destruct (failure + 1 =? ft); [inversion H; exact Hone | eauto].
Qed.

End Order.

(** X5. Whatever the threshold, a node built by [sequence] evaluates a
    prefix of its children, in the order of the list and each one once: the
    journal of the instrumented children is [0, 1, ..., k - 1] for some
    [k] not above their number. *)
Theorem sequence_evaluates_prefix_in_order {U : Type}
    (children : list (node U)) (threshold : option Z)
    (nd : node (U * list nat)) (u : U) (r : completion value)
    (w : U * list nat) :
  sequence (instrument 0 children) threshold = Node nd ->
  nd (u, []) = Some (r, w) ->
  exists k, (k <= List.length children)%nat /\ snd w = seq 0 k.
Proof.
  intros Hb Hrun. unfold sequence in Hb.
  destruct (_ && _); [| discriminate].
  injection Hb as <-. unfold node_metadata, _sequence, bind in Hrun.
  match type of Hrun with
  | context [for_children ?st ?ft _ _ _ _ _] =>
      destruct (for_children st ft (instrument 0 children) 0 0 [] (u, []))
        as [[[o | e] w1] |] eqn:E
  end; try discriminate.
  - apply for_children_journal in E. destruct E as (k & Hk & Hj).
    exists k. split; [exact Hk |].
    destruct o; unfold ret in Hrun; inversion Hrun; subst; exact Hj.
  - apply for_children_never_raises in E. destruct E as [o E]. discriminate.
Qed.

(** Threshold 2 of 3 with two succeeding children first: two evaluations. *)
Lemma sequence_evaluates_prefix_in_order_witness :
  exists k, (k <= 3)%nat /\ [0%nat; 1%nat] = seq 0 k.
Proof.
  exact (sequence_evaluates_prefix_in_order
           [leaf (Normal SUCCESS); leaf (Normal SUCCESS); leaf (Normal FAILURE)]
           (Some 2)
           (_sequence (instrument 0 [leaf (Normal SUCCESS); leaf (Normal SUCCESS);
                                     leaf (Normal FAILURE)]) 2 2)
           0%nat (Normal (VList [SUCCESS; SUCCESS])) (2%nat, [0%nat; 1%nat])
           eq_refl eq_refl).
Defined.

Section Waiting.
Context {St : Type}.
Implicit Types (child : node St) (children pre post : list (node St)) (s : St).

Lemma attempt_waits child s : child s = None -> attempt child s = None.
Proof. intros H. unfold attempt, try_except. now rewrite H. Qed.

Lemma for_children_waits st ft pre child post :
  forall success failure results s rs s1,
    reports pre s = Some (Normal rs, s1) ->
    success + successes rs < st ->
    failure + failures rs < ft ->
    child s1 = None ->
    for_children st ft (pre ++ child :: post) success failure results s = None.
Proof.
  induction pre as [| p pre IH]; intros success failure results s rs s1
    Hpre Hs Hf Hc; apply reports_inv in Hpre.
  - destruct Hpre as [-> ->]. simpl. unfold bind at 1.
    now rewrite (attempt_waits _ _ Hc).
  - destruct Hpre as (v0 & vs & s0 & -> & Hp & Hrest).
    rewrite successes_cons in Hs. rewrite failures_cons in Hf.
    pose proof (successes_nonneg vs). pose proof (failures_nonneg vs).
    simpl app. rewrite (for_children_cons _ _ _ _ _ _ _ _ _ _ Hp).
    destruct (truth v0).
    + replace (success + 1 =? st) with false by (symmetry; apply Z.eqb_neq; lia).
      apply (IH _ _ _ _ _ _ Hrest); [lia | lia | exact Hc].
    + replace (failure + 1 =? ft) with false by (symmetry; apply Z.eqb_neq; lia).
      apply (IH _ _ _ _ _ _ Hrest); [lia | lia | exact Hc].
Qed.

Lemma _sequence_waits st ft pre child post s rs s1 :
  reports pre s = Some (Normal rs, s1) ->
  successes rs < st ->
  failures rs < ft ->
  child s1 = None ->
  _sequence (pre ++ child :: post) st ft s = None.
Proof.
  intros Hpre Hs Hf Hc. unfold _sequence, bind.
  now rewrite (for_children_waits st ft pre child post 0 0 [] s rs s1 Hpre)
    by (assumption || lia).
Qed.

End Waiting.

(** X9. There is no timeout in [sequence]: when the evaluation reaches,
    before either threshold is met, a child that never returns, the node
    never returns either. *)
Theorem sequence_waits_for_child {St : Type} (children : list (node St))
    (threshold : option Z) (nd : node St)
    (pre : list (node St)) (child : node St) (post : list (node St))
    (s : St) (rs : list value) (s1 : St) :
  sequence children threshold = Node nd ->
  children = pre ++ child :: post ->
  reports pre s = Some (Normal rs, s1) ->
  successes rs < effective_threshold children threshold ->
  failures rs < len children - effective_threshold children threshold + 1 ->
  child s1 = None ->
  nd s = None.
Proof.
  intros Hb -> Hpre Hs Hf Hc. unfold sequence in Hb.
  destruct (_ && _); [| discriminate].
  injection Hb as <-. unfold node_metadata.
  now apply (_sequence_waits _ _ pre child post s rs s1).
Qed.

(** A child that succeeds followed by one that never returns. *)
Lemma sequence_waits_for_child_witness :
  _sequence [leaf (Normal SUCCESS); diverge] 2 1 0%nat = None.
Proof.
  apply (sequence_waits_for_child [leaf (Normal SUCCESS); diverge] None
           (_sequence [leaf (Normal SUCCESS); diverge] 2 1)
           [leaf (Normal SUCCESS)] diverge [] 0%nat [SUCCESS] 1%nat);
    reflexivity.
Defined.

(** ** Further properties of [repeat_until] *)

Section RepeatMore.
Context {St : Type}.
Implicit Types (condition child : node St) (s : St).

Lemma is_success_inv condition s c' s2 :
  is_success condition s = Some (Normal c', s2) ->
  (exists c, condition s = Some (Normal c, s2) /\ truth c' = truth c) \/
  (exists e, condition s = Some (Raised e, s2) /\ truth c' = false).
Proof.
  unfold is_success, node_metadata, try_except, bind, ret.
  destruct (condition s) as [[[c | e] s1] |]; intros H; inversion H; subst.
  - left. exists c. split; [reflexivity |]. now destruct (truth c).
  - right. exists e. split; reflexivity.
Qed.

(** A return of the loop, started after [m] rounds, comes from more rounds
    followed by a check that is not a Success: the condition returned a
    Failure, or raised. *)
Lemma while_condition_inv condition child s0 :
  forall fuel m r s1 r' s',
    rounds condition child m s0 r s1 ->
    while_condition fuel (is_success condition) child r s1
      = Some (Normal r', s') ->
    exists m' s1',
      rounds condition child m' s0 r' s1' /\
      ((exists c, condition s1' = Some (Normal c, s') /\ truth c = false) \/
       (exists e, condition s1' = Some (Raised e, s'))) /\
      (m <= m')%nat /\ (m' - m < fuel)%nat.
Proof.
  induction fuel as [| fuel IH]; intros m r s1 r' s' Hr H; [discriminate |].
  simpl in H. unfold bind at 1 in H.
  destruct (is_success condition s1) as [[[c' | e] s2] |] eqn:E;
    try discriminate.
  apply is_success_inv in E.
  destruct E as [(c & Hc & Ht) | (e & Hc & Ht)]; rewrite Ht in H.
  - destruct (truth c) eqn:Tc.
    + unfold bind in H.
      destruct (attempt child s2) as [[[v | e] s3] |] eqn:A; try discriminate.
      destruct (IH (S m) v s3 r' s' (rounds_S _ _ _ _ _ _ _ _ _ _ Hr Hc Tc A) H)
        as (m' & s1' & Hr' & Hend & Hle & Hlt).
      exists m', s1'. repeat split; auto; lia.
    + unfold ret in H. inversion H; subst.
      exists m, s1. repeat split; eauto; lia.
  - unfold ret in H. inversion H; subst.
    exists m, s1. repeat split; eauto; lia.
Qed.

(** While the check succeeds wherever it is made, the loop does not end. *)
Lemma while_condition_never_ends (condition_eval : node St) child :
  (forall s, exists c s', condition_eval s = Some (Normal c, s') /\
                          truth c = true) ->
  forall fuel result s,
    while_condition fuel condition_eval child result s = None.
Proof.
  intros Hc. induction fuel as [| fuel IH]; intros result s; [reflexivity |].
  destruct (Hc s) as (c & s1 & E & Tc).
  rewrite (while_condition_continue _ _ _ _ _ _ _ E Tc).
  unfold bind. destruct (attempt child s1) as [[[v | e] s2] |] eqn:A.
  - apply IH.
  - apply attempt_never_raises in A. destruct A as [v A]. discriminate.
  - reflexivity.
Qed.

End RepeatMore.

(** X6. [repeat_until] enforces no bound on the number of iterations: with
    a condition that reports Success wherever it is checked, the loop has
    not ended after any number of checks, whatever the child does. *)
Theorem repeat_until_never_ends {St : Type} (condition child : node St) :
  (forall s, exists c s', condition s = Some (Normal c, s') /\ truth c = true) ->
  forall fuel s, repeat_until fuel condition child s = None.
Proof.
  intros Hc fuel s. unfold repeat_until, node_metadata, _repeat_until.
  apply while_condition_never_ends.
  intros s0. destruct (Hc s0) as (c & s1 & E & Tc).
  exists (if truth c then SUCCESS else FAILURE), s1.
  split; [now apply is_success_normal | now rewrite Tc].
Qed.

(** A condition that always succeeds. *)
Lemma repeat_until_never_ends_witness :
  repeat_until 50 (leaf (Normal SUCCESS)) (leaf (Normal VNone)) 0%nat = None.
Proof.
  apply (repeat_until_never_ends (leaf (Normal SUCCESS)) (leaf (Normal VNone))).
  intros s. exists SUCCESS, (S s). split; reflexivity.
Defined.

(** X8. Whenever [repeat_until] returns a result, the condition reported
    Success some [m] times in a row, each time followed by one evaluation
    of the child, and the next check was not a Success: the condition
    returned a Failure, or raised an error.  The result is that of the
    [m]-th evaluation of the child, or the generic Failure when [m = 0],
    and the world is the one that last check left. *)
Theorem repeat_until_return_inv {St : Type} (condition child : node St)
    (fuel : nat) (s : St) (r : value) (s' : St) :
  repeat_until fuel condition child s = Some (Normal r, s') ->
  exists m s1,
    rounds condition child m s r s1 /\
    ((exists c, condition s1 = Some (Normal c, s') /\ truth c = false) \/
     (exists e, condition s1 = Some (Raised e, s'))) /\
    (m < fuel)%nat.
Proof.
  unfold repeat_until, node_metadata, _repeat_until. intros H.
  destruct (while_condition_inv condition child s fuel 0 FAILURE s r s'
              (rounds_O _ _ s) H) as (m & s1 & Hr & Hend & _ & Hlt).
  exists m, s1. repeat split; auto; lia.
Qed.

Lemma repeat_until_return_inv_witness :
  exists m s1,
    rounds (until_count 4) (leaf (Normal (VInt 7))) m 0%nat (VInt 7) s1 /\
    ((exists c, until_count 4 s1 = Some (Normal c, 5%nat) /\ truth c = false) \/
     (exists e, until_count 4 s1 = Some (Raised e, 5%nat))) /\
    (m < 3)%nat.
Proof.
  exact (repeat_until_return_inv (until_count 4) (leaf (Normal (VInt 7)))
           3 0%nat (VInt 7) 5%nat eq_refl).
Defined.

(** ** Composition *)

Section Composition.
Context {St : Type}.
Implicit Types (child : node St) (children pre post xs ys : list (node St)) (s : St).

Lemma reports_join xs ys :
  forall s rx s1 ry s2,
    reports xs s = Some (Normal rx, s1) ->
    reports ys s1 = Some (Normal ry, s2) ->
    reports (xs ++ ys) s = Some (Normal (rx ++ ry), s2).
Proof.
  induction xs as [| x xs IH]; intros s rx s1 ry s2 Hx Hy;
    apply reports_inv in Hx.
  - destruct Hx as [-> ->]. exact Hy.
  - destruct Hx as (v & vs & s0 & -> & Hc & Hrest).
    exact (reports_step _ _ _ _ _ _ _ Hc (IH _ _ _ _ _ Hrest Hy)).
Qed.

Lemma attempt_none child s : attempt child s = None -> child s = None.
Proof.
  unfold attempt, try_except, ret.
  destruct (child s) as [[[v | e] s1] |]; intros H; [discriminate .. | reflexivity].
Qed.

Lemma fate_of children : forall s, fate children s.
Proof.
  induction children as [| child rest IH]; intros s.
  - now apply (all_succeed [] s [] s).
  - destruct (attempt child s) as [[[v | e] s1] |] eqn:A.
    + destruct (truth v) eqn:Tv.
      * destruct (IH s1) as [rs s' Hr Ha
                            | pre c post rs s2 w s3 -> Hr Ha Hc Hw
                            | pre c post rs s2 -> Hr Ha Hc].
        -- apply (all_succeed _ s (v :: rs) s').
           ++ exact (reports_step _ _ _ _ _ _ _ A Hr).
           ++ simpl. now rewrite Tv.
        -- apply (first_failure _ s (child :: pre) c post (v :: rs) s2 w s3);
             auto.
           ++ exact (reports_step _ _ _ _ _ _ _ A Hr).
           ++ simpl. now rewrite Tv.
        -- apply (never_returns _ s (child :: pre) c post (v :: rs) s2); auto.
           ++ exact (reports_step _ _ _ _ _ _ _ A Hr).
           ++ simpl. now rewrite Tv.
      * now apply (first_failure _ s [] child rest [] s v s1).
    + exfalso. apply attempt_never_raises in A. destruct A as [v A].
      discriminate.
    + apply (never_returns _ s [] child rest [] s); auto.
      now apply attempt_none.
Qed.

Lemma _sequence_default_waits pre child post s rs s1 :
  reports pre s = Some (Normal rs, s1) ->
  forallb truth rs = true ->
  child s1 = None ->
  _sequence (pre ++ child :: post) (len (pre ++ child :: post)) 1 s = None.
Proof.
  intros Hpre Hall Hc.
  destruct (all_success_counts rs Hall) as [Hs Hf].
  apply (_sequence_waits _ _ pre child post s rs s1 Hpre); [| lia | exact Hc].
  rewrite Hs, (reports_length _ _ _ _ Hpre). unfold len.
  rewrite length_app. simpl. lia.
Qed.

Lemma reports_nonempty children s rs s' :
  children <> [] ->
  reports children s = Some (Normal rs, s') ->
  truth (VList rs) = true.
Proof.
  intros Hne Hrun. apply reports_length in Hrun.
  destruct rs; [destruct children; [congruence | discriminate] | reflexivity].
Qed.

End Composition.

(** X10. Nesting two default sequences is the sequence of the concatenated
    children, up to the shape of a Success.  Either both evaluations never
    return, or both return the same Failure in the same world, or both
    succeed in the same world, the nested node with the two lists of
    results and the flat node with their concatenation. *)
Theorem sequence_of_sequences {St : Type} (xs ys : list (node St)) :
  xs <> [] -> ys <> [] ->
  exists nx ny nested flat,
    sequence xs None = Node nx /\
    sequence ys None = Node ny /\
    sequence [nx; ny] None = Node nested /\
    sequence (xs ++ ys) None = Node flat /\
    forall s,
      (nested s = None /\ flat s = None) \/
      (exists v s', truth v = false /\
         nested s = Some (Normal v, s') /\ flat s = Some (Normal v, s')) \/
      (exists rx ry s',
         nested s = Some (Normal (VList [VList rx; VList ry]), s') /\
         flat s = Some (Normal (VList (rx ++ ry)), s')).
Proof.
  intros Hx Hy.
  exists (_sequence xs (len xs) 1), (_sequence ys (len ys) 1).
  exists (_sequence [_sequence xs (len xs) 1; _sequence ys (len ys) 1]
            (len [_sequence xs (len xs) 1; _sequence ys (len ys) 1]) 1).
  exists (_sequence (xs ++ ys) (len (xs ++ ys)) 1).
  repeat (split; [apply sequence_default_built |]).
  intros s.
  set (nx := _sequence xs (len xs) 1). set (ny := _sequence ys (len ys) 1).
  destruct (fate_of xs s) as [rx s1 Hrx Hax
                             | pre c post rs s1 v s2 Hsplit Hr Ha Hc Hv
                             | pre c post rs s1 Hsplit Hr Ha Hc].
  - assert (Ex : nx s = Some (Normal (VList rx), s1))
      by now apply _sequence_default_all_success.
    assert (Tx : truth (VList rx) = true) by now apply (reports_nonempty xs s rx s1).
    assert (Rx : reports [nx] s = Some (Normal [VList rx], s1)).
    { simpl. unfold bind. now rewrite (attempt_normal _ _ _ _ Ex). }
    assert (Ax : forallb truth [VList rx] = true)
      by (cbn [forallb]; now rewrite Tx).
    destruct (fate_of ys s1) as [ry s2 Hry Hay
                                | pre c post rs s2 v s3 Hsplit Hr Ha Hc Hv
                                | pre c post rs s2 Hsplit Hr Ha Hc].
    + right. right. exists rx, ry, s2. split.
      * assert (Ey : ny s1 = Some (Normal (VList ry), s2))
          by now apply _sequence_default_all_success.
        apply _sequence_default_all_success; [discriminate | |].
        -- exact (reports_snoc [nx] ny s [VList rx] s1 (VList ry) s2 Rx
                    (attempt_normal _ _ _ _ Ey)).
        -- cbn [forallb app]. rewrite Tx, (reports_nonempty ys s1 ry s2 Hy Hry).
           reflexivity.
      * apply _sequence_default_all_success.
        -- destruct xs; [congruence | discriminate].
        -- exact (reports_join _ _ _ _ _ _ _ Hrx Hry).
        -- rewrite forallb_app, Hax, Hay. reflexivity.
    + right. left. exists v, s3. split; [exact Hv |].
      assert (Ey : ny s1 = Some (Normal v, s3)).
      { unfold ny. rewrite Hsplit.
        now apply (_sequence_default_first_failure pre c post s1 rs s2 v s3). }
      split.
      * apply (_sequence_default_first_failure [nx] ny [] s [VList rx] s1 v s3
                 Rx Ax (attempt_normal _ _ _ _ Ey) Hv).
      * rewrite Hsplit, app_assoc.
        apply (_sequence_default_first_failure (xs ++ pre) c post s
                 (rx ++ rs) s2 v s3); auto.
        -- exact (reports_join _ _ _ _ _ _ _ Hrx Hr).
        -- rewrite forallb_app, Hax, Ha. reflexivity.
    + left.
      assert (Ey : ny s1 = None).
      { unfold ny. rewrite Hsplit.
        now apply (_sequence_default_waits pre c post s1 rs s2). }
      split.
      * exact (_sequence_default_waits [nx] ny [] s [VList rx] s1 Rx Ax Ey).
      * rewrite Hsplit, app_assoc.
        apply (_sequence_default_waits (xs ++ pre) c post s (rx ++ rs) s2); auto.
        -- exact (reports_join _ _ _ _ _ _ _ Hrx Hr).
        -- rewrite forallb_app, Hax, Ha. reflexivity.
  - right. left. exists v, s2. split; [exact Hv |].
    assert (Ex : nx s = Some (Normal v, s2)).
    { unfold nx. rewrite Hsplit.
      now apply (_sequence_default_first_failure pre c post s rs s1 v s2). }
    split.
    + exact (_sequence_default_first_failure [] nx [ny] s [] s v s2 eq_refl
               eq_refl (attempt_normal _ _ _ _ Ex) Hv).
    + rewrite Hsplit, <- app_assoc. simpl app.
      now apply (_sequence_default_first_failure pre c (post ++ ys) s rs s1 v s2).
  - left.
    assert (Ex : nx s = None).
    { unfold nx. rewrite Hsplit.
      now apply (_sequence_default_waits pre c post s rs s1). }
    split.
    + exact (_sequence_default_waits [] nx [ny] s [] s eq_refl eq_refl Ex).
    + rewrite Hsplit, <- app_assoc. simpl app.
      now apply (_sequence_default_waits pre c (post ++ ys) s rs s1).
Qed.

Lemma sequence_of_sequences_witness :
  exists nx ny nested flat,
    sequence [leaf (Normal SUCCESS)] None = Node nx /\
    sequence [leaf (Normal (VInt 1)); leaf (Normal FAILURE)] None = Node ny /\
    sequence [nx; ny] None = Node nested /\
    sequence ([leaf (Normal SUCCESS)]
              ++ [leaf (Normal (VInt 1)); leaf (Normal FAILURE)]) None
    = Node flat /\
    forall s,
      (nested s = None /\ flat s = None) \/
      (exists v s', truth v = false /\
         nested s = Some (Normal v, s') /\ flat s = Some (Normal v, s')) \/
      (exists rx ry s',
         nested s = Some (Normal (VList [VList rx; VList ry]), s') /\
         flat s = Some (Normal (VList (rx ++ ry)), s')).
Proof.
  apply (sequence_of_sequences [leaf (Normal SUCCESS)]
           [leaf (Normal (VInt 1)); leaf (Normal FAILURE)]); discriminate.
Defined.

(** X11. A decision without failure tree and the default sequence of its
    condition and its success tree agree on the outcome, as long as the
    two nodes do not raise: both never return, or both return in the same
    world a result of the same truth value (the tree's result against the
    list of both results on Success; the generic Failure against the own
    Failure of the condition when the condition fails). *)
Theorem decision_agrees_with_sequence {St : Type}
    (condition success_tree : node St) (s : St) :
  contains_errors condition ->
  contains_errors success_tree ->
  exists nd,
    sequence [condition; success_tree] None = Node nd /\
    match decision condition success_tree None s, nd s with
    | None, None => True
    | Some (Normal v, w), Some (Normal v', w') => truth v = truth v' /\ w = w'
    | _, _ => False
    end.
Proof.
  intros Hc Ht. eexists. split; [apply sequence_default_built |].
  unfold decision, node_metadata, _decision, _sequence, bind. simpl.
  unfold bind, attempt, try_except, ret.
  destruct (condition s) as [[[c | e] s1] |] eqn:Ec.
  - destruct (truth c) eqn:Tc; simpl.
    + destruct (success_tree s1) as [[[v | e] s2] |] eqn:Et.
      * destruct (truth v) eqn:Tv; simpl; auto.
      * destruct (Ht _ _ _ Et) as [v Hv]. discriminate.
      * exact I.
    + rewrite Tc. auto.
  - destruct (Hc _ _ _ Ec) as [v Hv]. discriminate.
  - exact I.
Qed.

Lemma decision_agrees_with_sequence_witness :
  exists nd,
    sequence [leaf (Normal SUCCESS); leaf (Normal (VInt 0))] None = Node nd /\
    match decision (leaf (Normal SUCCESS)) (leaf (Normal (VInt 0))) None 0%nat,
          nd 0%nat with
    | None, None => True
    | Some (Normal v, w), Some (Normal v', w') => truth v = truth v' /\ w = w'
    | _, _ => False
    end.
Proof.
  apply (decision_agrees_with_sequence (leaf (Normal SUCCESS))
           (leaf (Normal (VInt 0))) 0%nat);
    intros s r s' H; inversion H; eauto.
Defined.
